(** * sat-soc: the computational core of [app.py]

    A shallow embedding of the helper functions of [app.py] and of the
    data pipeline of its SOC tab, with the properties stated about them.

    Conventions.
    - Python [float] (the sliders, [np.sqrt], [np.cos], [np.sin],
      [np.linspace]) is idealised as Rocq's real numbers [R]: rounding is
      outside the model.  The one place where a statement turns on the
      gap between [np.pi] and pi is the end of the orbit trace: there
      [np.pi] is the rational number the [float64] constant denotes
      ([np_pi]), and [np.cos], [np.sin] are the real functions at it.
      In the period formula and the Earth mesh [np.pi] stays pi.
    - The process-global generator behind [np.random] is library code.  It
      is a parameter of the development: a type of generator states with
      the three entry points the program calls ([seed], [randint],
      [choice]) and the range contracts numpy documents for them.  The
      generator numpy installs, MT19937 behind the legacy [RandomState],
      is one instance ([mt19937]); it gives the table every run of the
      script draws.
    - [DataFrame.sort_values] with its default [kind] is library code too;
      it is a parameter with the contract pandas documents for the default
      algorithm (a permutation of the rows, ordered by the key).  What
      pandas runs for one integer key, [nargsort] over numpy's
      [argsort(kind="quicksort")], is one instance
      ([sort_values_quicksort]), with numpy's generic introsort for the
      argsort (builds of numpy that hand [argsort] to a vectorised sort
      order equal keys differently). *)

From Stdlib Require Import ZArith List String Ascii Bool Lia Permutation Sorted.
From Stdlib Require Import QArith.
From Stdlib Require Import Reals Lra Machin.
From Stdlib Require Import OrderedTypeEx.
Import ListNotations.

Local Open Scope string_scope.
Local Open Scope list_scope.
Local Open Scope Z_scope.

(* ------------------------------------------------------------------ *)
(** ** The random source ([np.random]) *)

Module NumpyRandom.

(** The legacy global [RandomState]: [seed n] is the state installed by
    [np.random.seed(n)] (it replaces the previous state whole);
    [randint low high] and [choice a] draw once and advance the state. *)
Record RandomState : Type := {
  state   : Type;
  seed    : Z -> state;
  randint : Z -> Z -> state -> Z * state;
  choice  : list string -> state -> string * state
}.

(** numpy's documented contracts: [randint(low, high)] returns an
    integer in the half-open interval [[low, high)]; [choice(a)] returns
    an element of [a]. *)
Record Lawful (rng : RandomState) : Prop := {
  randint_range : forall low high s,
    low < high -> low <= fst (randint rng low high s) < high;
  choice_in : forall a s,
    a <> [] -> In (fst (choice rng a s)) a
}.

(** A concrete lawful source (a 31-bit linear congruential generator),
    used to run the program on concrete states. *)
Definition lcg_next (s : Z) : Z := (1103515245 * s + 12345) mod 2147483648.

Definition lcg_bits (s : Z) : Z := s / 65536.

Definition lcg : RandomState := {|
  state   := Z;
  seed    := fun n => n mod 4294967296;
  randint := fun low high s =>
    let s' := lcg_next s in (low + lcg_bits s' mod (high - low), s');
  choice  := fun a s =>
    let s' := lcg_next s in
    (nth (Z.to_nat (lcg_bits s' mod Z.of_nat (List.length a))) a "", s')
|}.

(** *** MT19937, the generator of the legacy [RandomState]

    [mt19937_state]: the 624 key words and the position of the next one. *)
Record mt19937_state : Type := mkMt { mt_key : list Z; mt_pos : nat }.

Definition RK_STATE_LEN : nat := 624.

(** A [uint32_t] value: [& 0xffffffff]. *)
Definition uint32 (z : Z) : Z := z mod 4294967296.

(** The loop of [mt19937_seed]: [key[pos] = seed;
    seed = (1812433253 * (seed ^ (seed >> 30)) + pos + 1) & 0xffffffff]. *)
Fixpoint mt19937_init_key (n : nat) (pos : Z) (seed : Z) : list Z :=
  match n with
  | O => []
  | S n' =>
      seed :: mt19937_init_key n' (pos + 1)
                (uint32 (1812433253 * Z.lxor seed (Z.shiftr seed 30) + pos + 1))
  end.

(** [mt19937_seed(state, seed)], what [np.random.seed(n)] runs for an
    integer [n]; the position is set to the end of the key. *)
Definition mt19937_seed (seed : Z) : mt19937_state :=
  mkMt (mt19937_init_key RK_STATE_LEN 0 (uint32 seed)) RK_STATE_LEN.

Fixpoint set_word (k : list Z) (i : nat) (x : Z) : list Z :=
  match k, i with
  | [], _ => []
  | _ :: t, O => x :: t
  | h :: t, S i' => h :: set_word t i' x
  end.

(** One word of the next key:
    [y = (key[i] & UPPER_MASK) | (key[i1] & LOWER_MASK);
     key[i] = key[im] ^ (y >> 1) ^ (-(y & 1) & MATRIX_A)]. *)
Definition mt19937_twist (k : list Z) (i i1 im : nat) : list Z :=
  let y := Z.lor (Z.land (nth i k 0) 2147483648) (Z.land (nth i1 k 0) 2147483647) in
  set_word k i (Z.lxor (Z.lxor (nth im k 0) (Z.shiftr y 1))
                       (if Z.testbit y 0 then 2567483615 else 0)).

(** [mt19937_gen]: the key is renewed in place, word by word, in three
    stretches ([i + M] below [N - M], [i + (M - N)] from there on, and the
    last word, which wraps to [key[0]]); [N = 624], [M = 397]. *)
Definition mt19937_gen (k : list Z) : list Z :=
  let k := fold_left (fun k i => mt19937_twist k i (i + 1) (i + 397)) (seq 0 227) k in
  let k := fold_left (fun k i => mt19937_twist k i (i + 1) (i - 227)) (seq 227 396) k in
  mt19937_twist k 623 0 396.

(** The tempering of [mt19937_next], on a [uint32_t]. *)
Definition mt19937_temper (y : Z) : Z :=
  let y := Z.lxor y (Z.shiftr y 11) in
  let y := Z.lxor y (Z.land (uint32 (Z.shiftl y 7)) 2636928640) in
  let y := Z.lxor y (Z.land (uint32 (Z.shiftl y 15)) 4022730752) in
  uint32 (Z.lxor y (Z.shiftr y 18)).

(** [mt19937_next]: a new key when the old one is used up, then the next
    word, tempered. *)
Definition mt19937_next (s : mt19937_state) : Z * mt19937_state :=
  let used_up := Nat.eqb (mt_pos s) RK_STATE_LEN in
  let k := if used_up then mt19937_gen (mt_key s) else mt_key s in
  let p := if used_up then O else mt_pos s in
  (mt19937_temper (nth p k 0), mkMt k (S p)).

(** [mt19937_next64]: two words, the first in the high half. *)
Definition mt19937_next64 (s : mt19937_state) : Z * mt19937_state :=
  let (hi, s1) := mt19937_next s in
  let (lo, s2) := mt19937_next s1 in
  (Z.lor (Z.shiftl hi 32) lo, s2).

(** [gen_mask]: the smallest [2^k - 1] that is at least [max]. *)
Definition gen_mask (max : Z) : Z :=
  let mask := max in
  let mask := Z.lor mask (Z.shiftr mask 1) in
  let mask := Z.lor mask (Z.shiftr mask 2) in
  let mask := Z.lor mask (Z.shiftr mask 4) in
  let mask := Z.lor mask (Z.shiftr mask 8) in
  let mask := Z.lor mask (Z.shiftr mask 16) in
  Z.lor mask (Z.shiftr mask 32).

(** [while ((val = (next(state) & mask)) > rng);], the masked rejection
    of the legacy [randint].  numpy's loop has no bound; each round ends
    it with probability above 1/2, and the model stops after [fuel]
    rounds with 0. *)
Fixpoint bounded_masked (next : mt19937_state -> Z * mt19937_state)
    (fuel : nat) (rng mask : Z) (s : mt19937_state) : Z * mt19937_state :=
  match fuel with
  | O => (0, s)
  | S fuel' =>
      let (y, s') := next s in
      let val := Z.land y mask in
      if val >? rng then bounded_masked next fuel' rng mask s' else (val, s')
  end.

(** [RandomState.randint(low, high)] with the default [int64] dtype:
    [rng = high - 1 - low] and the draw is [low] plus a value in
    [[0, rng]]: no word is used when [rng = 0], 32-bit words when [rng]
    fits 32 bits, 64-bit words above.  numpy raises for [low >= high];
    the model returns [low] there. *)
Definition mt19937_randint (low high : Z) (s : mt19937_state) : Z * mt19937_state :=
  let rng := high - 1 - low in
  if rng <=? 0 then (low, s)
  else if rng <? 4294967295 then
    let (val, s') := bounded_masked mt19937_next 64 rng (gen_mask rng) s in
    (low + val, s')
  else if rng =? 4294967295 then
    let (val, s') := mt19937_next s in (low + val, s')
  else if rng <? 18446744073709551615 then
    let (val, s') := bounded_masked mt19937_next64 64 rng (gen_mask rng) s in
    (low + val, s')
  else
    let (val, s') := mt19937_next64 s in (low + val, s').

(** [RandomState.choice(a)] on a list, without [size], [replace] or [p]:
    [a[randint(0, len(a))]]. *)
Definition mt19937_choice (a : list string) (s : mt19937_state)
  : string * mt19937_state :=
  let (idx, s') := mt19937_randint 0 (Z.of_nat (List.length a)) s in
  (nth (Z.to_nat idx) a "", s').

Definition mt19937 : RandomState := {|
  state   := mt19937_state;
  seed    := mt19937_seed;
  randint := mt19937_randint;
  choice  := mt19937_choice
|}.

End NumpyRandom.
Import NumpyRandom.

(* ------------------------------------------------------------------ *)
(** ** State passing *)

Section StateMonad.
Variable St : Type.

(** A computation that reads and advances the generator state. *)
Definition M (A : Type) : Type := St -> A * St.

Definition ret {A} (a : A) : M A := fun s => (a, s).

Definition bind {A B} (m : M A) (f : A -> M B) : M B :=
  fun s => let (a, s') := m s in f a s'.

(** [for x in xs: acc = body x acc], the shape of the generators' loops
    (the accumulator is the list the loop appends to). *)
Fixpoint for_each {A S} (xs : list A) (body : A -> S -> M S) (acc : S) : M S :=
  match xs with
  | [] => ret acc
  | x :: xs' => bind (body x acc) (for_each xs' body)
  end.
End StateMonad.

Arguments ret {St A} a.
Arguments bind {St A B} m f.
Arguments for_each {St A S} xs body acc.

Notation "x <- m ;; k" := (bind m (fun x => k))
  (at level 100, m at next level, right associativity).

(* ------------------------------------------------------------------ *)
(** ** Data model of the SOC tab *)

(** A row as the generator appends it (a dict with four keys). *)
Record ThreatRow : Type := mkRow {
  row_Threat : string;
  row_CIA : string;
  row_Likelihood : Z;
  row_Impact : Z
}.

(** A row of the data frame once the [RiskScore] column is assigned. *)
Record ThreatRecord : Type := mkThreat {
  Threat : string;
  CIA : string;
  Likelihood : Z;
  Impact : Z;
  RiskScore : Z
}.

(** The integer columns are [int64]: the product wraps modulo [2^64]. *)
Definition int64_wrap (z : Z) : Z :=
  (z + 9223372036854775808) mod 18446744073709551616 - 9223372036854775808.

Definition int64_mul (a b : Z) : Z := int64_wrap (a * b).

(** [df["RiskScore"] = df["Likelihood"] * df["Impact"]] *)
Definition assign_RiskScore (rows : list ThreatRow) : list ThreatRecord :=
  map (fun r => mkThreat (row_Threat r) (row_CIA r)
                         (row_Likelihood r) (row_Impact r)
                         (int64_mul (row_Likelihood r) (row_Impact r)))
      rows.

Definition threats : list string :=
  [ "GNSS Spoofing"; "Uplink Jamming"; "Downlink Jamming";
    "Ground Station Intrusion"; "Supply Chain Malware"; "Sat Bus Exploit";
    "Command Injection"; "Data Exfiltration"; "Ransomware in Ground IT";
    "Insider Threat" ].

Definition cia_dim : list string :=
  [ "Confidentiality"; "Integrity"; "Availability" ].

(** [Series.isin] *)
Definition isin (x : string) (values : list string) : bool :=
  existsb (String.eqb x) values.

(** The segment selection of the SOC tab ([df_seg]). *)
Definition segment_mask (segment : string) : option (list string) :=
  if String.eqb segment "Space Segment" then
    Some ["Sat Bus Exploit"; "Command Injection"; "Data Exfiltration"]
  else if String.eqb segment "Ground Segment" then
    Some ["Ground Station Intrusion"; "Ransomware in Ground IT"; "Insider Threat"]
  else if String.eqb segment "Link Segment" then
    Some ["GNSS Spoofing"; "Uplink Jamming"; "Downlink Jamming"]
  else None.

Definition df_seg (segment : string) (df_threats : list ThreatRecord)
  : list ThreatRecord :=
  match segment_mask segment with
  | Some names => filter (fun r => isin (Threat r) names) df_threats
  | None => df_threats
  end.

(** [df_seg[df_seg["RiskScore"] >= risk_threshold]] *)
Definition high_risk (risk_threshold : Z) (df : list ThreatRecord)
  : list ThreatRecord :=
  filter (fun r => risk_threshold <=? RiskScore r) df.

(* ------------------------------------------------------------------ *)
(** ** The generators *)

Section Generators.
Variable rng : RandomState.

Definition np_random_seed (n : Z) : M (state rng) unit :=
  fun _ => (tt, seed rng n).

Definition np_random_randint (low high : Z) : M (state rng) Z :=
  randint rng low high.

Definition np_random_choice (a : list string) : M (state rng) string :=
  choice rng a.

(** The body of the inner loop: the dict literal draws [Likelihood]
    first, then [Impact], and the row is appended. *)
Definition threat_row (t dim : string) (rows : list ThreatRow)
  : M (state rng) (list ThreatRow) :=
  l <- np_random_randint 1 5 ;;
  i <- np_random_randint 1 5 ;;
  ret (rows ++ [mkRow t dim l i]).

Definition threat_rows (ts dims : list string)
  : list ThreatRow -> M (state rng) (list ThreatRow) :=
  for_each ts (fun t => for_each dims (threat_row t)).

Definition generate_mock_sat_threat_data : M (state rng) (list ThreatRecord) :=
  _ <- np_random_seed 42 ;;
  rows <- threat_rows threats cia_dim [] ;;
  ret (assign_RiskScore rows).

End Generators.

(* ------------------------------------------------------------------ *)
(** ** The coverage matrix *)

(** A row as [generate_mitre_like_matrix] appends it. *)
Record CoverageRow : Type := mkCovRow {
  row_Tactic : string;
  row_Technique : string;
  row_Coverage : string
}.

(** A row once the [CoverageScore] column is assigned; a label missing
    from the mapping gives NaN, here [None]. *)
Record CoverageRecord : Type := mkCoverage {
  Tactic : string;
  Technique : string;
  Coverage : string;
  CoverageScore : option Z
}.

Definition tactics : list string :=
  [ "Reconnaissance"; "Initial Access"; "Execution"; "Persistence";
    "Command & Control"; "Impact" ].

Definition techniques : list string :=
  [ "RF Scanning"; "Phishing Ground Staff"; "SATCOM Protocol Abuse";
    "Backdoor in Ground SW"; "C2 via Compromised GS";
    "Orbit/Attitude Manipulation" ].

Definition coverage_levels : list string := [ "None"; "Partial"; "Good" ].

Definition coverage_map : list (string * Z) :=
  [ ("None", 0); ("Partial", 1); ("Good", 2) ].

Fixpoint dict_get (d : list (string * Z)) (k : string) : option Z :=
  match d with
  | [] => None
  | (k', v) :: d' => if String.eqb k k' then Some v else dict_get d' k
  end.

(** [df_mitre["CoverageScore"] = df_mitre["Coverage"].map(coverage_map)] *)
Definition assign_CoverageScore (rows : list CoverageRow) : list CoverageRecord :=
  map (fun r => mkCoverage (row_Tactic r) (row_Technique r) (row_Coverage r)
                           (dict_get coverage_map (row_Coverage r)))
      rows.

Section CoverageGenerator.
Variable rng : RandomState.

Definition coverage_row (t tech : string) (data : list CoverageRow)
  : M (state rng) (list CoverageRow) :=
  c <- np_random_choice rng coverage_levels ;;
  ret (data ++ [mkCovRow t tech c]).

Definition coverage_rows (ts techs : list string)
  : list CoverageRow -> M (state rng) (list CoverageRow) :=
  for_each ts (fun t => for_each techs (coverage_row t)).

(** No call to [seed]: the draws start from the state the caller is in. *)
Definition generate_mitre_like_matrix : M (state rng) (list CoverageRow) :=
  coverage_rows tactics techniques [].

(** [n] successive draws of [np.random.choice] over the three levels. *)
Fixpoint choice_draws (n : nat) : M (state rng) (list string) :=
  match n with
  | O => ret []
  | S n' =>
      c <- np_random_choice rng coverage_levels ;;
      cs <- choice_draws n' ;;
      ret (c :: cs)
  end.
End CoverageGenerator.

(** *** [pivot_table(index="Technique", columns="Tactic",
        values="CoverageScore", aggfunc="mean")] *)

Record PivotTable : Type := mkPivot {
  index : list string;
  columns : list string;
  values : list (list (option Q))
}.

Fixpoint insert_unique (x : string) (l : list string) : list string :=
  match l with
  | [] => [x]
  | y :: l' =>
      match String.compare x y with
      | Lt => x :: y :: l'
      | Eq => y :: l'
      | Gt => y :: insert_unique x l'
      end
  end.

(** The group keys, sorted and without repetition. *)
Definition sorted_unique (l : list string) : list string :=
  fold_right insert_unique [] l.

Definition has_score (r : CoverageRecord) : bool :=
  match CoverageScore r with Some _ => true | None => false end.

(** The scores of the rows of one (Technique, Tactic) group. *)
Definition group_values (df : list CoverageRecord) (tech tac : string) : list Z :=
  flat_map (fun r =>
              if String.eqb (Technique r) tech && String.eqb (Tactic r) tac
              then match CoverageScore r with Some v => [v] | None => [] end
              else [])
           df.

(** The mean of a group; an empty group leaves the cell unpopulated. *)
Definition mean (vs : list Z) : option Q :=
  match vs with
  | [] => None
  | _ => Some (Qdiv (inject_Z (fold_right Z.add 0 vs))
                   (inject_Z (Z.of_nat (List.length vs))))
  end.

Definition pivot_table (df : list CoverageRecord) : PivotTable :=
  let valid := filter has_score df in
  let idx := sorted_unique (map Technique valid) in
  let cols := sorted_unique (map Tactic valid) in
  mkPivot idx cols
          (map (fun tech => map (fun tac => mean (group_values valid tech tac)) cols)
               idx).

Fixpoint lookup {A} (k : string) (keys : list string) (vals : list A) : option A :=
  match keys, vals with
  | k' :: keys', v :: vals' => if String.eqb k k' then Some v else lookup k keys' vals'
  | _, _ => None
  end.

(** [pivot.loc[tech, tac]]; [None] when the cell is missing or NaN. *)
Definition pivot_cell (pt : PivotTable) (tech tac : string) : option Q :=
  match lookup tech (index pt) (values pt) with
  | Some row =>
      match lookup tac (columns pt) row with
      | Some cell => cell
      | None => None
      end
  | None => None
  end.

(* ------------------------------------------------------------------ *)
(** ** Sorting the high-risk findings *)

(** *** numpy's [argsort(kind="quicksort")] on an integer key

    The generic indirect introsort [aquicksort_] of numpy's [npysort]:
    quicksort with a median of three, insertion sort for parts of at most
    17 elements, heapsort once the depth limit is used up.  [v] is the key
    array, [tosort] the array of row positions that is permuted; [pl],
    [pr] and the other pointers are positions in [tosort]. *)
Module NumpySort.

(** [a[i]] and [a[i] = x] on a C array held as a list. *)
Definition get (a : list Z) (i : Z) : Z := nth (Z.to_nat i) a 0.

Fixpoint set_nth (a : list Z) (i : nat) (x : Z) : list Z :=
  match a, i with
  | [], _ => []
  | _ :: t, O => x :: t
  | h :: t, S i' => h :: set_nth t i' x
  end.

Definition set (a : list Z) (i : Z) (x : Z) : list Z :=
  if i <? 0 then a else set_nth a (Z.to_nat i) x.

(** [INTP_SWAP(a[i], a[j])] *)
Definition swap (a : list Z) (i j : Z) : list Z :=
  let x := get a i in
  let y := get a j in
  set (set a i y) j x.

(** [v[*p]]: the key of the row index stored at position [p]. *)
Definition key (v tosort : list Z) (p : Z) : Z := get v (get tosort p).

Definition SMALL_QUICKSORT : Z := 16.

(** Every loop below runs at most once per element of the array; the
    loops are cut after [loop_fuel] rounds. *)
Definition loop_fuel (a : list Z) : nat := S (S (List.length a)).

(** [npy_get_msb]: the number of times the argument halves before 0. *)
Definition npy_get_msb (unum : Z) : Z := Z.log2 unum.

(** The sift of [aheapsort_], on the 1-based heap [a = tosort + off - 1]:
    [for (...; j <= n;) { ... } a[i] = tmp]. *)
Fixpoint sift (fuel : nat) (v a : list Z) (off tmp i j n : Z) : option (list Z) :=
  match fuel with
  | O => None
  | S fuel' =>
      if j <=? n then
        let j := if (j <? n) && (key v a (off + j - 1) <? key v a (off + j)) then j + 1
                 else j in
        if get v tmp <? key v a (off + j - 1)
        then sift fuel' v (set a (off + i - 1) (get a (off + j - 1))) off tmp j (j + j) n
        else Some (set a (off + i - 1) tmp)
      else Some (set a (off + i - 1) tmp)
  end.

(** [for (l = n >> 1; l > 0; --l)]: build the heap. *)
Fixpoint heapify (fuel : nat) (v a : list Z) (off l n : Z) : option (list Z) :=
  match fuel with
  | O => None
  | S fuel' =>
      if 0 <? l then
        match sift (loop_fuel a) v a off (get a (off + l - 1)) l (Z.shiftl l 1) n with
        | None => None
        | Some a' => heapify fuel' v a' off (l - 1) n
        end
      else Some a
  end.

(** [for (; n > 1;)]: move the maximum to the end, restore the heap. *)
Fixpoint heap_extract (fuel : nat) (v a : list Z) (off n : Z) : option (list Z) :=
  match fuel with
  | O => None
  | S fuel' =>
      if 1 <? n then
        let tmp := get a (off + n - 1) in
        let a := set a (off + n - 1) (get a off) in
        let n := n - 1 in
        match sift (loop_fuel a) v a off tmp 1 2 n with
        | None => None
        | Some a' => heap_extract fuel' v a' off n
        end
      else Some a
  end.

(** [aheapsort_(vv, tosort + off, n)] *)
Definition aheapsort (v a : list Z) (off n : Z) : option (list Z) :=
  match heapify (loop_fuel a) v a off (Z.shiftr n 1) n with
  | None => None
  | Some a' => heap_extract (loop_fuel a) v a' off n
  end.

(** [do { ++pi; } while (v[*pi] < vp);] *)
Fixpoint scan_up (fuel : nat) (v a : list Z) (vp pi : Z) : option Z :=
  match fuel with
  | O => None
  | S fuel' =>
      let pi := pi + 1 in
      if key v a pi <? vp then scan_up fuel' v a vp pi else Some pi
  end.

(** [do { --pj; } while (vp < v[*pj]);] *)
Fixpoint scan_down (fuel : nat) (v a : list Z) (vp pj : Z) : option Z :=
  match fuel with
  | O => None
  | S fuel' =>
      let pj := pj - 1 in
      if vp <? key v a pj then scan_down fuel' v a vp pj else Some pj
  end.

(** The [for (;;)] of the partition: scan, stop when the scans cross, swap. *)
Fixpoint partition_scan (fuel : nat) (v a : list Z) (vp pi pj : Z)
  : option (list Z * Z) :=
  match fuel with
  | O => None
  | S fuel' =>
      match scan_up (loop_fuel a) v a vp pi with
      | None => None
      | Some pi =>
          match scan_down (loop_fuel a) v a vp pj with
          | None => None
          | Some pj =>
              if pi >=? pj then Some (a, pi)
              else partition_scan fuel' v (swap a pi pj) vp pi pj
          end
      end
  end.

(** Median of three at [pl], [pm], [pr]. *)
Definition median3 (v a : list Z) (pl pm pr : Z) : list Z :=
  let a := if key v a pm <? key v a pl then swap a pm pl else a in
  let a := if key v a pr <? key v a pm then swap a pr pm else a in
  if key v a pm <? key v a pl then swap a pm pl else a.

(** [while ((pr - pl) > SMALL_QUICKSORT)]: partition, push the larger
    part with the decremented depth, go on with the smaller part. *)
Fixpoint partition_while (fuel : nat) (v a : list Z) (pl pr cdepth : Z)
    (stack : list (Z * Z * Z))
  : option (list Z * Z * Z * Z * list (Z * Z * Z)) :=
  match fuel with
  | O => None
  | S fuel' =>
      if pr - pl >? SMALL_QUICKSORT then
        let pm := pl + Z.shiftr (pr - pl) 1 in
        let a := median3 v a pl pm pr in
        let vp := key v a pm in
        let pi := pl in
        let pj := pr - 1 in
        let a := swap a pm pj in
        match partition_scan (loop_fuel a) v a vp pi pj with
        | None => None
        | Some (a, pi) =>
            let pk := pr - 1 in
            let a := swap a pi pk in
            let cdepth := cdepth - 1 in
            if pi - pl <? pr - pi
            then partition_while fuel' v a pl (pi - 1) cdepth
                                 ((pi + 1, pr, cdepth) :: stack)
            else partition_while fuel' v a (pi + 1) pr cdepth
                                 ((pl, pi - 1, cdepth) :: stack)
        end
      else Some (a, pl, pr, cdepth, stack)
  end.

(** [while (pj > pl && vp < v[*pk]) { *pj-- = *pk--; }] *)
Fixpoint insert_shift (fuel : nat) (v a : list Z) (vp pl pj : Z)
  : option (list Z * Z) :=
  match fuel with
  | O => None
  | S fuel' =>
      let pk := pj - 1 in
      if (pl <? pj) && (vp <? key v a pk)
      then insert_shift fuel' v (set a pj (get a pk)) vp pl (pj - 1)
      else Some (a, pj)
  end.

(** [for (pi = pl + 1; pi <= pr; ++pi)]: insertion sort of a small part. *)
Fixpoint insertion_for (fuel : nat) (v a : list Z) (pl pi pr : Z) : option (list Z) :=
  match fuel with
  | O => None
  | S fuel' =>
      if pi <=? pr then
        let vi := get a pi in
        let vp := get v vi in
        match insert_shift (loop_fuel a) v a vp pl pi with
        | None => None
        | Some (a, pj) => insertion_for fuel' v (set a pj vi) pl (pi + 1) pr
        end
      else Some a
  end.

(** The [while (1)] of [aquicksort_]: heapsort when the depth is used up,
    else partition and insertion sort; then pop the next part. *)
Fixpoint aquicksort_loop (fuel : nat) (v a : list Z) (pl pr cdepth : Z)
    (stack : list (Z * Z * Z)) : option (list Z) :=
  match fuel with
  | O => None
  | S fuel' =>
      let sorted :=
        if cdepth <? 0 then
          match aheapsort v a pl (pr - pl + 1) with
          | None => None
          | Some a => Some (a, stack)
          end
        else
          match partition_while (loop_fuel a) v a pl pr cdepth stack with
          | None => None
          | Some (a, pl, pr, _, stack) =>
              match insertion_for (loop_fuel a) v a pl (pl + 1) pr with
              | None => None
              | Some a => Some (a, stack)
              end
          end in
      match sorted with
      | None => None
      | Some (a, []) => Some a
      | Some (a, (pl, pr, cdepth) :: stack) => aquicksort_loop fuel' v a pl pr cdepth stack
      end
  end.

(** [aquicksort_(vv, tosort, num)] *)
Definition aquicksort (v tosort : list Z) : option (list Z) :=
  let num := Z.of_nat (List.length tosort) in
  aquicksort_loop (loop_fuel tosort) v tosort 0 (num - 1)
                  (npy_get_msb num * 2) [].

(** [np.argsort(v, kind="quicksort")]: the indices [0 .. n-1], sorted by
    key. *)
Definition argsort (v : list Z) : option (list Z) :=
  aquicksort v (map Z.of_nat (seq 0 (List.length v))).

End NumpySort.

Module Pandas.

(** [DataFrame.sort_values("RiskScore", ascending=False)] with the
    default [kind="quicksort"]. *)
Definition sort_values_desc : Type := list ThreatRecord -> list ThreatRecord.

Definition descending (a b : ThreatRecord) : Prop := RiskScore a >= RiskScore b.

(** What pandas documents for the default algorithm: the rows are
    reordered, and the key column is in descending order.  Stability is
    documented for [kind="mergesort"] and [kind="stable"] only. *)
Record SortContract (sort : sort_values_desc) : Prop := {
  sort_perm : forall df, Permutation (sort df) df;
  sort_sorted : forall df, StronglySorted descending (sort df)
}.

(** Two sorts that keep the contract, insertion sorts by descending
    [RiskScore]; neither is the algorithm pandas runs (that is
    [sort_values_quicksort] below).  With [stable = true] a row is placed
    before the rows of equal score that followed it in the input; with
    [stable = false] it is placed after them. *)
Fixpoint insert_desc (stable : bool) (x : ThreatRecord) (l : list ThreatRecord)
  : list ThreatRecord :=
  match l with
  | [] => [x]
  | y :: l' =>
      if (if stable then RiskScore x <? RiskScore y
          else RiskScore x <=? RiskScore y)
      then y :: insert_desc stable x l'
      else x :: y :: l'
  end.

Definition insertion_sort_desc (stable : bool) : sort_values_desc :=
  fold_right (insert_desc stable) [].

(** What [sort_values] runs for one integer key column:
    [nargsort(items, kind="quicksort", ascending=False)].  The column has
    no missing value; the keys and their positions are reversed, sorted
    in ascending order by numpy, and the sorted positions reversed. *)
Definition nargsort_desc (items : list Z) : option (list Z) :=
  let idx := map Z.of_nat (seq 0 (List.length items)) in
  let non_nans := rev items in
  let non_nan_idx := rev idx in
  match NumpySort.argsort non_nans with
  | None => None
  | Some order => Some (rev (map (NumpySort.get non_nan_idx) order))
  end.

(** [take(indexer)]: the rows at the positions of the indexer. *)
Fixpoint take (df : list ThreatRecord) (indexer : list Z)
  : option (list ThreatRecord) :=
  match indexer with
  | [] => Some []
  | i :: rest =>
      match nth_error df (Z.to_nat i), take df rest with
      | Some r, Some rs => Some (r :: rs)
      | _, _ => None
      end
  end.

(** [df.sort_values("RiskScore", ascending=False)] as pandas runs it;
    [None] when a loop of the argsort is cut. *)
Definition sort_values_quicksort (df : list ThreatRecord)
  : option (list ThreatRecord) :=
  match nargsort_desc (map RiskScore df) with
  | None => None
  | Some indexer => take df indexer
  end.

End Pandas.
Import Pandas.

(** The order the specification asks for: descending [RiskScore], ties in
    the order of the input. *)
Definition stable_sort_desc_spec : list ThreatRecord -> list ThreatRecord :=
  insertion_sort_desc true.

(* ------------------------------------------------------------------ *)
(** ** The SOC tab, one run of the script *)

Record SocTab : Type := mkSocTab {
  tab_df_threats : list ThreatRecord;
  tab_df_seg : list ThreatRecord;
  tab_high_risk : list ThreatRecord;
  tab_findings : list ThreatRecord;
  tab_df_mitre : list CoverageRecord;
  tab_pivot : PivotTable
}.

Section Script.
Variable rng : RandomState.
Variable sort_values : sort_values_desc.

(** The data flow of [with tab2:], in the order of the script: the
    threat table is generated first, the coverage table afterwards, both
    on the one process-global generator. *)
Definition soc_tab (segment : string) (risk_threshold : Z) : M (state rng) SocTab :=
  df_threats <- generate_mock_sat_threat_data rng ;;
  let seg := df_seg segment df_threats in
  let hr := high_risk risk_threshold seg in
  let findings := sort_values hr in
  rows <- generate_mitre_like_matrix rng ;;
  let df_mitre := assign_CoverageScore rows in
  ret (mkSocTab df_threats seg hr findings df_mitre (pivot_table df_mitre)).

End Script.

(* ------------------------------------------------------------------ *)
(** ** Orbital mechanics and link budget *)

Local Open Scope R_scope.

Definition MU_EARTH : R := 398600441800000.
Definition R_EARTH : R := 6371000.

(** [2 * np.pi * np.sqrt(semi_major_axis_m**3 / MU_EARTH)] on a [float]
    or a Python [int] argument, whose cube does not wrap: the call of the
    key outputs, where the altitude slider returns a Python [int].  The
    sweep passes an [np.int64]; that call is [kepler_period_int64]. *)
Definition kepler_period (semi_major_axis_m : R) : R :=
  2 * PI * sqrt (semi_major_axis_m ^ 3 / MU_EARTH).

(** [np.sqrt(MU_EARTH / semi_major_axis_m)] *)
Definition orbital_velocity (semi_major_axis_m : R) : R :=
  sqrt (MU_EARTH / semi_major_axis_m).

(** The key orbital outputs of the script, for the altitude slider:
    [a = R_EARTH + altitude_km * 1000; T = kepler_period(a);
     v = orbital_velocity(a)]. *)
Definition key_orbital_outputs (altitude_km : R) : R * R :=
  let a := R_EARTH + altitude_km * 1000 in
  let T := kepler_period a in
  let v := orbital_velocity a in
  (T, v).

(** [np.linspace(start, stop, num)] with the default [endpoint=True]:
    [num] samples [start + i * step], [step = (stop - start) / (num - 1)],
    the last one set to [stop]. *)
Definition linspace (start stop : R) (num : nat) : list R :=
  let step := (stop - start) / (INR num - 1) in
  map (fun i => if (Nat.eqb (S i) num && Nat.ltb 1 num)%bool then stop
                else start + INR i * step)
      (seq 0 num).

(** [np.pi] as the [float64] it is: 884279719003555 / 2^48, the double
    nearest to pi.  Doubling a [float64] is exact, so [2 * np.pi] is
    [2 * np_pi]. *)
Definition np_pi : R := 884279719003555 / 281474976710656.

Definition generate_orbit_3d (altitude_km : R) (points : nat)
  : list R * list R * list R :=
  let r := R_EARTH + altitude_km * 1000 in
  let theta := linspace 0 (2 * np_pi) points in
  let x := map (fun t => r * cos t) theta in
  let y := map (fun t => r * sin t) theta in
  let z := map (fun _ => 0) theta in
  (x, y, z).

(** The trace as a sequence of points [(x_i, y_i, z_i)]. *)
Definition orbit_points (xyz : list R * list R * list R) : list (R * R * R) :=
  let '(x, y, z) := xyz in combine (combine x y) z.

Definition satellite_link_budget
  (eirp_dbw path_loss_db rx_gain_db sys_loss_db noise_figure_db : R) : R :=
  let cn0_db := eirp_dbw - path_loss_db + rx_gain_db - sys_loss_db - noise_figure_db in
  cn0_db.

Local Close Scope R_scope.

(* ------------------------------------------------------------------ *)
(** ** The draws behind the threat table *)

Section RandintStream.
Variable rng : RandomState.

(** [n] successive draws of [np.random.randint(1, 5)]. *)
Fixpoint randint_draws (n : nat) : M (state rng) (list Z) :=
  match n with
  | O => ret []
  | S n' =>
      x <- np_random_randint rng 1 5 ;;
      xs <- randint_draws n' ;;
      ret (x :: xs)
  end.
End RandintStream.

(** The rows the threat loops build when the draws come out as [draws]:
    two draws per key, Likelihood first. *)
Fixpoint threat_rows_of (keys : list (string * string)) (draws : list Z)
  : list ThreatRow :=
  match keys, draws with
  | (t, dim) :: keys', l :: i :: draws' =>
      mkRow t dim l i :: threat_rows_of keys' draws'
  | _, _ => []
  end.

(* ------------------------------------------------------------------ *)
(** ** The risk heatmap *)

(** A row of [heatmap_data]: a (Likelihood, Impact) pair that occurs in
    the table and the number of records that carry it. *)
Record HeatmapRow : Type := mkHeat {
  heat_Likelihood : Z;
  heat_Impact : Z;
  Count : Z
}.

Definition heat_key (g : HeatmapRow) : Z * Z := (heat_Likelihood g, heat_Impact g).

(** Group keys are ordered by Likelihood, then Impact. *)
Definition key_compare (k k' : Z * Z) : comparison :=
  match fst k ?= fst k' with
  | Eq => snd k ?= snd k'
  | c => c
  end.

(** One more record with key [k]: its group is created, with count 1, or
    its count goes up by one; the groups stay in key order. *)
Fixpoint count_key (k : Z * Z) (groups : list HeatmapRow) : list HeatmapRow :=
  match groups with
  | [] => [mkHeat (fst k) (snd k) 1]
  | g :: groups' =>
      match key_compare k (heat_key g) with
      | Lt => mkHeat (fst k) (snd k) 1 :: g :: groups'
      | Eq => mkHeat (heat_Likelihood g) (heat_Impact g) (Count g + 1) :: groups'
      | Gt => g :: count_key k groups'
      end
  end.

(** [df_seg.groupby(["Likelihood", "Impact"]).size()
          .reset_index(name="Count")] *)
Definition heatmap_data (df : list ThreatRecord) : list HeatmapRow :=
  fold_right (fun r groups => count_key (Likelihood r, Impact r) groups) [] df.

(** The count the heatmap shows for a pair; 0 when the pair has no row. *)
Fixpoint heat_count (groups : list HeatmapRow) (k : Z * Z) : Z :=
  match groups with
  | [] => 0
  | g :: groups' =>
      match key_compare k (heat_key g) with
      | Eq => Count g
      | _ => heat_count groups' k
      end
  end.

(* ------------------------------------------------------------------ *)
(** ** The altitude sweep *)

(** [np.arange(start, stop, step)] on integers with [step > 0]:
    [ceil((stop - start) / step)] values [start + k * step], none when
    [stop <= start]. *)
Definition np_arange (start stop step : Z) : list Z :=
  map (fun k => start + Z.of_nat k * step)
      (seq 0 (Z.to_nat ((stop - start + step - 1) / step))).

(** [R_EARTH] as the integer the script adds to an [int64] altitude. *)
Definition R_EARTH_int : Z := 6371000.

Definition int64_add (a b : Z) : Z := int64_wrap (a + b).

(** [a ** 3] on an [int64] scalar: square, then multiply, each product
    wrapping. *)
Definition int64_cube (a : Z) : Z := int64_mul a (int64_mul a a).

Local Open Scope R_scope.

(** [np.sqrt] on a float: NaN, here [None], below zero. *)
Definition np_sqrt (x : R) : option R :=
  if Rle_dec 0 x then Some (sqrt x) else None.

(** [kepler_period] as the sweep calls it, on an [int64] scalar: the cube
    is taken in [int64] before the division turns it into a float. *)
Definition kepler_period_int64 (semi_major_axis_m : Z) : option R :=
  match np_sqrt (IZR (int64_cube semi_major_axis_m) / MU_EARTH) with
  | Some root => Some (2 * PI * root)
  | None => None
  end.

Record OrbitStats : Type := mkOrbitStats {
  Altitude_km : list Z;
  Period_min : list (option R);
  Velocity_km_s : list R
}.

(** [a_sweep = R_EARTH + alt * 1000] for an element [alt] of the
    [int64] array of altitudes. *)
Definition a_sweep (alt : Z) : Z := int64_add R_EARTH_int (int64_mul alt 1000).

(** The sweep table [df_orbit_stats].  The velocity column divides the
    float [MU_EARTH] by the semi-major axis, so it stays in floats; a
    semi-major axis of 0 (infinite velocity) is outside the model. *)
Definition df_orbit_stats (sweep_min sweep_max sweep_step : Z) : OrbitStats :=
  let altitudes := np_arange sweep_min (sweep_max + sweep_step) sweep_step in
  mkOrbitStats
    altitudes
    (map (fun alt => match kepler_period_int64 (a_sweep alt) with
                     | Some T => Some (T / 60)
                     | None => None
                     end) altitudes)
    (map (fun alt => orbital_velocity (IZR (a_sweep alt)) / 1000) altitudes).

(* ------------------------------------------------------------------ *)
(** ** The 3D scene *)

(** One axis of [np.mgrid[start:stop:num*1j]]: [num] values
    [i * step + start] with [step = (stop - start) / (num - 1)]. *)
Definition mgrid_axis (start stop : R) (num : nat) : list R :=
  map (fun i => INR i * ((stop - start) / (INR num - 1)) + start) (seq 0 num).

(** [np.mgrid] over two axes: both results have one row per value of the
    first axis and one column per value of the second. *)
Definition np_mgrid (start1 stop1 : R) (num1 : nat) (start2 stop2 : R) (num2 : nat)
  : list (list R) * list (list R) :=
  let axis1 := mgrid_axis start1 stop1 num1 in
  let axis2 := mgrid_axis start2 stop2 num2 in
  (map (fun a => map (fun _ => a) axis2) axis1,
   map (fun _ => axis2) axis1).

(** Elementwise operation on two arrays of the same shape. *)
Definition zip_with {A B C} (f : A -> B -> C) (l : list A) (m : list B) : list C :=
  map (fun ab => f (fst ab) (snd ab)) (combine l m).

(** The Earth surface [(xe, ye, ze)] of the 3D figure. *)
Definition earth_surface : list (list R) * list (list R) * list (list R) :=
  let '(u, v_angle) := np_mgrid 0 (2 * PI) 30 0 PI 15 in
  let xe := zip_with (zip_with (fun a b => R_EARTH * cos a * sin b)) u v_angle in
  let ye := zip_with (zip_with (fun a b => R_EARTH * sin a * sin b)) u v_angle in
  let ze := map (map (fun b => R_EARTH * cos b)) v_angle in
  (xe, ye, ze).

(** The satellite marker [(x[0], y[0], z[0])]; indexing an empty trace
    raises, here [None]. *)
Definition satellite_marker (xyz : list R * list R * list R) : option (R * R * R) :=
  let '(x, y, z) := xyz in
  match x, y, z with
  | x0 :: _, y0 :: _, z0 :: _ => Some (x0, y0, z0)
  | _, _, _ => None
  end.

Local Close Scope R_scope.

(* ------------------------------------------------------------------ *)
(** ** Vocabulary of the statements *)

Definition row_key (r : ThreatRow) : string * string := (row_Threat r, row_CIA r).
Definition threat_key (r : ThreatRecord) : string * string := (Threat r, CIA r).

(** Both draws of a row satisfy [P]. *)
Definition drawn (P : Z -> Prop) (r : ThreatRow) : Prop :=
  P (row_Likelihood r) /\ P (row_Impact r).

(** A record of a threat table: scores in [[1,4]], [RiskScore] their
    product. *)
Definition well_formed (r : ThreatRecord) : Prop :=
  1 <= Likelihood r <= 4 /\ 1 <= Impact r <= 4
  /\ RiskScore r = Likelihood r * Impact r.

Definition coverage_key (r : CoverageRecord) : string * string :=
  (Tactic r, Technique r).

(** The rows the coverage loops build from the draws [cs], in loop order. *)
Definition coverage_rows_of (keys : list (string * string)) (cs : list string)
  : list CoverageRow :=
  map (fun kc => mkCovRow (fst (fst kc)) (snd (fst kc)) (snd kc)) (combine keys cs).

(** The order of the heatmap's group keys, as a proposition. *)
Definition key_lt (k k' : Z * Z) : Prop :=
  fst k < fst k' \/ (fst k = fst k' /\ snd k < snd k').

(** The groups are in strictly ascending key order. *)
Definition keys_sorted (groups : list HeatmapRow) : Prop :=
  StronglySorted key_lt (map heat_key groups).

(** The records of a table that carry the pair [k]. *)
Definition records_with (k : Z * Z) (df : list ThreatRecord) : list ThreatRecord :=
  filter (fun r => (Likelihood r =? fst k) && (Impact r =? snd k)) df.

Definition total_count (groups : list HeatmapRow) : Z :=
  fold_right (fun g acc => Count g + acc) 0 groups.

(** Strict order of the pivot's labels (code-point order of strings). *)
Definition string_lt (a b : string) : Prop := String.compare a b = Lt.

(** The points [(xe[i][j], ye[i][j], ze[i][j])] of a surface, row by row. *)
Definition surface_points (xyz : list (list R) * list (list R) * list (list R))
  : list (R * R * R) :=
  let '(xe, ye, ze) := xyz in
  List.concat (map (fun row => combine (combine (fst (fst row)) (snd (fst row))) (snd row))
              (combine (combine xe ye) ze)).

(** The scored records of one cell, as a filter of the table, and the
    sum of their scores. *)
Definition cell_records (df : list CoverageRecord) (tech tac : string)
  : list CoverageRecord :=
  filter (fun r => String.eqb (Technique r) tech && String.eqb (Tactic r) tac
                   && has_score r) df.

Definition score_sum (rs : list CoverageRecord) : Z :=
  fold_right (fun r acc => match CoverageScore r with
                           | Some v => v + acc
                           | None => acc
                           end) 0 rs.

(** The options of the segment selector and the values of the threshold
    slider. *)
Definition segments : list string :=
  ["All"; "Space Segment"; "Ground Segment"; "Link Segment"].

Definition thresholds : list Z := map Z.of_nat (seq 1 16).

(** The threat table of every run: the draws of MT19937 from the seed 42. *)
Definition df_threats_42 : list ThreatRecord :=
  Eval vm_compute in fst (generate_mock_sat_threat_data mt19937 (mt19937_seed 42)).

(** Descending order of [RiskScore], decided. *)
Fixpoint is_sorted_desc (l : list ThreatRecord) : bool :=
  match l with
  | [] => true
  | x :: t => forallb (fun y => RiskScore y <=? RiskScore x) t && is_sorted_desc t
  end.

(** An indexer that holds each of the positions [0 .. n-1] once. *)
Definition is_index_perm (indexer : list Z) (n : nat) : bool :=
  Nat.eqb (List.length indexer) n
  && forallb (fun k => existsb (Z.eqb k) indexer) (map Z.of_nat (seq 0 n)).

(** The findings pandas returns on [hr] are a reordering of [hr] in
    descending order, decided by running the sort. *)
Definition findings_check (hr : list ThreatRecord) : bool :=
  match nargsort_desc (map RiskScore hr) with
  | Some indexer =>
      is_index_perm indexer (List.length hr)
      && match take hr indexer with
         | Some findings => is_sorted_desc findings
         | None => false
         end
  | None => false
  end.

(** A populated cell holding 0, 1 or 2. *)
Definition cell_012 (cell : option Q) : Prop :=
  cell = Some (inject_Z 0) \/ cell = Some (inject_Z 1) \/ cell = Some (inject_Z 2).

(* ================================================================== *)
(** * Properties *)

(* ------------------------------------------------------------------ *)
(** ** The concrete random source is lawful *)

Lemma lcg_lawful : Lawful lcg.
Proof.
  split; cbn.
  - intros low high s Hlh.
    pose proof (Z.mod_pos_bound (lcg_bits (lcg_next s)) (high - low)).
    lia.
  - intros a s Ha.
    apply nth_In.
    assert (0 < Z.of_nat (List.length a)) by (destruct a; [congruence | cbn; lia]).
    pose proof (Z.mod_pos_bound (lcg_bits (lcg_next s)) (Z.of_nat (List.length a))).
    lia.
Qed.

(* ------------------------------------------------------------------ *)
(** ** The threat table *)

Section ThreatLoops.
Variable rng : RandomState.

(** A property of every value [randint(1, 5)] can return. *)
Variable P : Z -> Prop.
Hypothesis draw_P : forall s, P (fst (randint rng 1 5 s)).

Lemma threat_row_run t dim rows s :
  exists l i s',
    threat_row rng t dim rows s = (rows ++ [mkRow t dim l i], s') /\ P l /\ P i.
Proof.
  unfold threat_row, bind, np_random_randint, ret.
  pose proof (draw_P s) as Hl.
  destruct (randint rng 1 5 s) as [l s1].
  pose proof (draw_P s1) as Hi.
  destruct (randint rng 1 5 s1) as [i s2].
  now exists l, i, s2.
Qed.

Lemma inner_loop_run t dims : forall rows s,
  exists new s',
    for_each dims (threat_row rng t) rows s = (rows ++ new, s')
    /\ map row_key new = map (pair t) dims
    /\ Forall (drawn P) new.
Proof.
  induction dims as [|d dims IH]; intros rows s; cbn.
  - exists [], s. rewrite app_nil_r. repeat split; constructor.
  - unfold bind.
    destruct (threat_row_run t d rows s) as (l & i & s1 & -> & Hl & Hi).
    destruct (IH (rows ++ [mkRow t d l i]) s1) as (new & s' & -> & Hk & Hd).
    exists (mkRow t d l i :: new), s'. rewrite <- app_assoc. cbn.
    repeat split.
    + now rewrite Hk.
    + constructor; [split; assumption | assumption].
Qed.

Lemma threat_rows_run ts dims : forall rows s,
  exists new s',
    threat_rows rng ts dims rows s = (rows ++ new, s')
    /\ map row_key new = list_prod ts dims
    /\ Forall (drawn P) new.
Proof.
  unfold threat_rows.
  induction ts as [|t ts IH]; intros rows s; cbn.
  - exists [], s. rewrite app_nil_r. repeat split; constructor.
  - unfold bind.
    destruct (inner_loop_run t dims rows s) as (new1 & s1 & -> & Hk1 & Hd1).
    destruct (IH (rows ++ new1) s1) as (new2 & s' & -> & Hk2 & Hd2).
    exists (new1 ++ new2), s'. rewrite <- app_assoc.
    repeat split.
    + now rewrite map_app, Hk1, Hk2.
    + apply Forall_app; split; assumption.
Qed.

(** The generated frame: the keys are the cross product in loop order,
    every draw satisfies [P], and [RiskScore] is the [int64] product. *)
Lemma generate_mock_sat_threat_data_run s :
  exists rows s',
    generate_mock_sat_threat_data rng s = (assign_RiskScore rows, s')
    /\ map row_key rows = list_prod threats cia_dim
    /\ Forall (drawn P) rows.
Proof.
  unfold generate_mock_sat_threat_data, bind, np_random_seed, ret.
  destruct (threat_rows_run threats cia_dim [] (seed rng 42))
    as (rows & s' & -> & Hk & Hd).
  now exists rows, s'.
Qed.
End ThreatLoops.

Lemma int64_mul_small a b :
  1 <= a <= 4 -> 1 <= b <= 4 -> int64_mul a b = a * b.
Proof.
  intros Ha Hb. unfold int64_mul, int64_wrap.
  assert (1 <= a * b <= 16) by nia.
  rewrite Z.mod_small; lia.
Qed.

Lemma assign_RiskScore_keys rows :
  map threat_key (assign_RiskScore rows) = map row_key rows.
Proof. unfold assign_RiskScore. rewrite map_map. reflexivity. Qed.

Lemma assign_RiskScore_well_formed rows :
  Forall (drawn (fun z => 1 <= z <= 4)) rows ->
  Forall well_formed (assign_RiskScore rows).
Proof.
  unfold assign_RiskScore. intros H. apply Forall_map.
  eapply Forall_impl; [|exact H].
  intros r [Hl Hi]. unfold well_formed; cbn.
  rewrite int64_mul_small by assumption. auto.
Qed.

Lemma randint_1_5 rng (H : Lawful rng) s : 1 <= fst (randint rng 1 5 s) <= 4.
Proof. pose proof (randint_range rng H 1 5 s). lia. Qed.

Lemma NoDup_list_prod {A B} (l : list A) (l' : list B) :
  NoDup l -> NoDup l' -> NoDup (list_prod l l').
Proof.
  intros Hl Hl'. induction Hl as [|a l Ha Hl IH]; cbn.
  - constructor.
  - apply NoDup_app.
    + clear -Hl'. induction Hl' as [|b l' Hb Hl' IH']; cbn; constructor; auto.
      rewrite in_map_iff. intros (b' & Heq & Hin). congruence.
    + exact IH.
    + intros [a' b'] Hin Hin'.
      apply in_map_iff in Hin as (b'' & Heq & _).
      apply in_prod_iff in Hin' as [Hin' _]. congruence.
Qed.

Lemma NoDup_strings (l : list string) :
  (fix distinct (l : list string) : bool :=
     match l with
     | [] => true
     | x :: l' => negb (existsb (String.eqb x) l') && distinct l'
     end) l = true -> NoDup l.
Proof.
  induction l as [|x l IH]; intros H; constructor.
  - apply andb_prop in H as [H _]. apply negb_true_iff in H.
    intros Hin. assert (existsb (String.eqb x) l = true); [|congruence].
    apply existsb_exists. exists x. split; [assumption | apply String.eqb_refl].
  - apply andb_prop in H as [_ H]. auto.
Qed.

Lemma NoDup_threat_keys : NoDup (list_prod threats cia_dim).
Proof. apply NoDup_list_prod; apply NoDup_strings; reflexivity. Qed.

(** C1. Whatever state the generator is in, and for every random source
    that keeps numpy's contract for [randint], the threat generator
    returns 30 records, one per (Threat, CIA) pair of the 10 threat names
    and the 3 CIA dimensions, in loop order; in every record Likelihood and
    Impact are integers in [[1,4]], RiskScore is their product and lies in
    [[1,16]]. *)
Theorem threat_table_shape (rng : RandomState) (H : Lawful rng) (s : state rng) :
  let df := fst (generate_mock_sat_threat_data rng s) in
  List.length df = 30%nat
  /\ List.length threats = 10%nat /\ List.length cia_dim = 3%nat
  /\ map threat_key df = list_prod threats cia_dim
  /\ NoDup (map threat_key df)
  /\ Forall (fun r => 1 <= Likelihood r <= 4 /\ 1 <= Impact r <= 4
                      /\ RiskScore r = Likelihood r * Impact r
                      /\ 1 <= RiskScore r <= 16) df.
Proof.
  destruct (generate_mock_sat_threat_data_run rng (fun z => 1 <= z <= 4)
              (randint_1_5 rng H) s)
    as (rows & s' & -> & Hk & Hd).
  cbn [fst].
  assert (Hkeys : map threat_key (assign_RiskScore rows) = list_prod threats cia_dim)
    by now rewrite assign_RiskScore_keys.
  repeat split; try reflexivity.
  - rewrite <- (length_map threat_key), Hkeys. reflexivity.
  - exact Hkeys.
  - rewrite Hkeys. exact NoDup_threat_keys.
  - eapply Forall_impl; [|apply assign_RiskScore_well_formed; exact Hd].
    intros r (Hl & Hi & Hr). repeat split; try tauto; nia.
Qed.

Lemma threat_table_shape_witness :
  let df := fst (generate_mock_sat_threat_data lcg 0) in
  List.length df = 30%nat
  /\ List.length threats = 10%nat /\ List.length cia_dim = 3%nat
  /\ map threat_key df = list_prod threats cia_dim
  /\ NoDup (map threat_key df)
  /\ Forall (fun r => 1 <= Likelihood r <= 4 /\ 1 <= Impact r <= 4
                      /\ RiskScore r = Likelihood r * Impact r
                      /\ 1 <= RiskScore r <= 16) df.
Proof. exact (threat_table_shape lcg lcg_lawful 0). Defined.

(** The keys of the generated table do not depend on the random source. *)
Lemma threat_table_keys (rng : RandomState) (s : state rng) :
  map threat_key (fst (generate_mock_sat_threat_data rng s))
  = list_prod threats cia_dim.
Proof.
  destruct (generate_mock_sat_threat_data_run rng (fun _ => True)
              (fun _ => I) s) as (rows & s' & -> & Hk & _).
  cbn [fst]. now rewrite assign_RiskScore_keys.
Qed.

Lemma threat_table_any_state (rng : RandomState) (s1 s2 : state rng) :
  generate_mock_sat_threat_data rng s1 = generate_mock_sat_threat_data rng s2.
Proof. reflexivity. Qed.

(** C2. The generator installs the seed 42 before it draws, so its result
    does not depend on the state it is called in: two invocations, from
    any two states and in particular one after the other, return the same
    30-record table, record for record and in the same order (and leave
    the generator in the same state). *)
Theorem threat_table_reproducible (rng : RandomState) (s1 s2 : state rng) :
  generate_mock_sat_threat_data rng s1 = generate_mock_sat_threat_data rng s2
  /\ fst (generate_mock_sat_threat_data rng
            (snd (generate_mock_sat_threat_data rng s1)))
     = fst (generate_mock_sat_threat_data rng s1)
  /\ List.length (fst (generate_mock_sat_threat_data rng s1)) = 30%nat.
Proof.
  repeat split.
  rewrite <- (length_map threat_key), threat_table_keys. reflexivity.
Qed.

(* ------------------------------------------------------------------ *)
(** ** Segment filter *)

Lemma isin_In x values : isin x values = true <-> In x values.
Proof.
  unfold isin. rewrite existsb_exists. split.
  - intros (y & Hin & Heq). apply String.eqb_eq in Heq. now subst.
  - intros Hin. exists x. split; [assumption | apply String.eqb_refl].
Qed.

Lemma length_filter_map {A B} (f : A -> B) (p : B -> bool) (l : list A) :
  List.length (filter (fun a => p (f a)) l) = List.length (filter p (map f l)).
Proof.
  induction l as [|a l IH]; cbn; [reflexivity|].
  destruct (p (f a)); cbn; now rewrite IH.
Qed.

Lemma threat_table_names (rng : RandomState) (s : state rng) :
  map Threat (fst (generate_mock_sat_threat_data rng s))
  = map fst (list_prod threats cia_dim).
Proof.
  rewrite <- (threat_table_keys rng s), map_map. reflexivity.
Qed.

(** C8. The segment selection is a filter of the table it is given: it
    keeps, in their order, exactly the records whose Threat is in the set
    mapped to the segment (Sat Bus Exploit, Command Injection, Data
    Exfiltration for Space; Ground Station Intrusion, Ransomware in
    Ground IT, Insider Threat for Ground; GNSS Spoofing, Uplink Jamming,
    Downlink Jamming for Link), and the whole table for "All" (which has
    no mapped set).  On the generated table "Space Segment" keeps 9
    records, as do the other two named segments, and "All" keeps all
    30. *)
Theorem segment_filter_exact (rng : RandomState) (s : state rng) :
  let df := fst (generate_mock_sat_threat_data rng s) in
  (forall segment tbl,
      df_seg segment tbl
      = filter (fun r => match segment_mask segment with
                         | Some names => isin (Threat r) names
                         | None => true
                         end) tbl)
  /\ (forall segment tbl r,
         In r (df_seg segment tbl) <->
         In r tbl /\ match segment_mask segment with
                     | Some names => In (Threat r) names
                     | None => True
                     end)
  /\ segment_mask "Space Segment"
     = Some ["Sat Bus Exploit"; "Command Injection"; "Data Exfiltration"]
  /\ segment_mask "All" = None
  /\ (forall tbl, df_seg "All" tbl = tbl)
  /\ List.length (df_seg "Space Segment" df) = 9%nat
  /\ List.length (df_seg "All" df) = 30%nat
  /\ (forall tbl,
        df_seg "Space Segment" tbl
        = filter (fun r => isin (Threat r)
                    ["Sat Bus Exploit"; "Command Injection"; "Data Exfiltration"]) tbl
        /\ df_seg "Ground Segment" tbl
           = filter (fun r => isin (Threat r)
                       ["Ground Station Intrusion"; "Ransomware in Ground IT";
                        "Insider Threat"]) tbl
        /\ df_seg "Link Segment" tbl
           = filter (fun r => isin (Threat r)
                       ["GNSS Spoofing"; "Uplink Jamming"; "Downlink Jamming"]) tbl)
  /\ (forall tbl r,
        (In r (df_seg "Space Segment" tbl)
         <-> In r tbl /\ (Threat r = "Sat Bus Exploit"
                          \/ Threat r = "Command Injection"
                          \/ Threat r = "Data Exfiltration"))
        /\ (In r (df_seg "Ground Segment" tbl)
            <-> In r tbl /\ (Threat r = "Ground Station Intrusion"
                             \/ Threat r = "Ransomware in Ground IT"
                             \/ Threat r = "Insider Threat"))
        /\ (In r (df_seg "Link Segment" tbl)
            <-> In r tbl /\ (Threat r = "GNSS Spoofing"
                             \/ Threat r = "Uplink Jamming"
                             \/ Threat r = "Downlink Jamming")))
  /\ List.length (df_seg "Ground Segment" df) = 9%nat
  /\ List.length (df_seg "Link Segment" df) = 9%nat.
Proof.
  cbv zeta.
  assert (Hfilter : forall segment tbl,
             df_seg segment tbl
             = filter (fun r => match segment_mask segment with
                                | Some names => isin (Threat r) names
                                | None => true
                                end) tbl).
  { intros segment tbl. unfold df_seg.
    destruct (segment_mask segment); [reflexivity|].
    induction tbl as [|r tbl IH]; cbn; [reflexivity | now rewrite <- IH]. }
  split; [exact Hfilter|].
  split.
  { intros segment tbl r. rewrite Hfilter, filter_In.
    destruct (segment_mask segment); [rewrite isin_In|]; tauto. }
  assert (Hnine : forall names,
             List.length (filter (fun r => isin (Threat r) names)
                            (fst (generate_mock_sat_threat_data rng s)))
             = List.length (filter (fun t => isin t names)
                              (map fst (list_prod threats cia_dim)))).
  { intros names.
    now rewrite (length_filter_map Threat (fun t => isin t names)), threat_table_names. }
  assert (Hmem : forall names tbl r,
             In r (filter (fun r => isin (Threat r) names) tbl)
             <-> In r tbl /\ In (Threat r) names).
  { intros names tbl r. now rewrite filter_In, isin_In. }
  split; [reflexivity|]. split; [reflexivity|]. split; [reflexivity|].
  split; [unfold df_seg; cbn [segment_mask String.eqb Ascii.eqb Bool.eqb];
          rewrite Hnine; reflexivity|].
  split; [change (df_seg "All" ?t) with t;
          rewrite <- (length_map threat_key), threat_table_keys; reflexivity|].
  split; [intros tbl; repeat split|].
  split.
  { intros tbl r.
    change (df_seg "Space Segment" tbl)
      with (filter (fun r => isin (Threat r)
                      ["Sat Bus Exploit"; "Command Injection"; "Data Exfiltration"]) tbl).
    change (df_seg "Ground Segment" tbl)
      with (filter (fun r => isin (Threat r)
                      ["Ground Station Intrusion"; "Ransomware in Ground IT";
                       "Insider Threat"]) tbl).
    change (df_seg "Link Segment" tbl)
      with (filter (fun r => isin (Threat r)
                      ["GNSS Spoofing"; "Uplink Jamming"; "Downlink Jamming"]) tbl).
    rewrite !Hmem. cbn [In].
    split; [|split]; (split; intros [Hin Ht]; (split; [exact Hin|]);
      intuition congruence). }
  split; unfold df_seg; cbn [segment_mask String.eqb Ascii.eqb Bool.eqb];
    rewrite Hnine; reflexivity.
Qed.

(* ------------------------------------------------------------------ *)
(** ** Risk threshold and the order of the findings *)

Section InsertionSorts.
Variable stable : bool.

Lemma insert_desc_perm x l : Permutation (insert_desc stable x l) (x :: l).
Proof.
  induction l as [|y l IH]; cbn; [reflexivity|].
  destruct (if stable then _ else _).
  - rewrite IH. apply perm_swap.
  - reflexivity.
Qed.

Lemma insert_desc_sorted x l :
  StronglySorted descending l -> StronglySorted descending (insert_desc stable x l).
Proof.
  induction 1 as [|y l Hs IH Hy]; cbn.
  - repeat constructor.
  - destruct (if stable then _ else _) eqn:Hcmp.
    + constructor; [exact IH|].
      rewrite (insert_desc_perm x l). constructor; [|exact Hy].
      unfold descending. destruct stable; lia.
    + assert (Hxy : descending x y) by (unfold descending; destruct stable; lia).
      constructor; [constructor; assumption|].
      constructor; [exact Hxy|].
      eapply Forall_impl; [|exact Hy].
      unfold descending in *. intros; lia.
Qed.

Lemma insertion_sort_desc_contract : SortContract (insertion_sort_desc stable).
Proof.
  split; intros df; induction df as [|x df IH]; cbn.
  - reflexivity.
  - fold (insertion_sort_desc stable df). rewrite insert_desc_perm. now constructor.
  - constructor.
  - apply insert_desc_sorted. exact IH.
Qed.
End InsertionSorts.

Lemma high_risk_In thr df r :
  In r (high_risk thr df) <-> In r df /\ thr <= RiskScore r.
Proof. unfold high_risk. rewrite filter_In, Z.leb_le. reflexivity. Qed.

Lemma well_formed_16 r :
  well_formed r -> 16 <= RiskScore r -> Likelihood r = 4 /\ Impact r = 4.
Proof. unfold well_formed. intros (Hl & Hi & ->) H. nia. Qed.

Lemma is_sorted_desc_sound l :
  is_sorted_desc l = true -> StronglySorted descending l.
Proof.
  induction l as [|x l IH]; cbn; [constructor|].
  rewrite andb_true_iff, forallb_forall. intros [Hx Hl].
  constructor; [apply IH; exact Hl|].
  apply Forall_forall. intros y Hy. apply Hx in Hy.
  unfold descending. lia.
Qed.

Lemma take_range pre df :
  take (pre ++ df) (map Z.of_nat (seq (List.length pre) (List.length df))) = Some df.
Proof.
  revert pre. induction df as [|x df IH]; intros pre; [reflexivity|].
  cbn [List.length seq map take]. rewrite Nat2Z.id.
  rewrite nth_error_app2, Nat.sub_diag by lia. cbn [nth_error].
  specialize (IH (pre ++ [x])).
  rewrite <- app_assoc, length_app in IH. cbn [List.length app] in IH.
  rewrite Nat.add_1_r in IH. now rewrite IH.
Qed.

Lemma take_perm df l l' :
  Permutation l l' ->
  forall out, take df l = Some out ->
  exists out', take df l' = Some out' /\ Permutation out out'.
Proof.
  induction 1 as [|i l l' _ IH|i j l|l l' l'' _ IH1 _ IH2]; intros out Hout.
  - exists out. split; [exact Hout | reflexivity].
  - cbn [take] in *. destruct (nth_error df (Z.to_nat i)) as [r|]; [|discriminate].
    destruct (take df l) as [rs|]; [|discriminate].
    injection Hout as <-. destruct (IH rs eq_refl) as (rs' & -> & Hp).
    exists (r :: rs'). split; [reflexivity | now constructor].
  - cbn [take] in *.
    destruct (nth_error df (Z.to_nat j)) as [rj|]; [|discriminate].
    destruct (nth_error df (Z.to_nat i)) as [ri|];
      [|destruct (take df l); discriminate].
    destruct (take df l) as [rs|]; [|discriminate].
    injection Hout as <-. exists (ri :: rj :: rs). split; [reflexivity | constructor].
  - destruct (IH1 out Hout) as (out' & Hout' & Hp1).
    destruct (IH2 out' Hout') as (out'' & Hout'' & Hp2).
    exists out''. split; [exact Hout'' | now transitivity out'].
Qed.

Lemma is_index_perm_sound indexer n :
  is_index_perm indexer n = true ->
  Permutation (map Z.of_nat (seq 0 n)) indexer.
Proof.
  unfold is_index_perm. rewrite andb_true_iff, Nat.eqb_eq, forallb_forall.
  intros [Hlen Hall]. apply NoDup_Permutation_bis.
  - apply Finite.Injective_map_NoDup; [intros a b; apply Nat2Z.inj | apply seq_NoDup].
  - rewrite length_map, length_seq. lia.
  - intros k Hk. apply Hall in Hk. apply existsb_exists in Hk as (k' & Hin & Heq).
    apply Z.eqb_eq in Heq. now subst k'.
Qed.

Lemma findings_check_sound hr :
  findings_check hr = true ->
  exists findings,
    sort_values_quicksort hr = Some findings
    /\ Permutation findings hr
    /\ StronglySorted descending findings.
Proof.
  unfold findings_check, sort_values_quicksort.
  destruct (nargsort_desc (map RiskScore hr)) as [indexer|]; [|discriminate].
  rewrite andb_true_iff. intros [Hperm Hsorted].
  destruct (take hr indexer) as [findings|] eqn:Htake; [|discriminate].
  exists findings. split; [reflexivity|].
  split; [|apply is_sorted_desc_sound; exact Hsorted].
  apply is_index_perm_sound in Hperm.
  destruct (take_perm hr _ _ (Permutation_sym Hperm) findings Htake)
    as (out' & Hout' & Hp).
  pose proof (take_range [] hr) as Hrange. cbn [app List.length] in Hrange.
  rewrite Hrange in Hout'. injection Hout' as <-. exact Hp.
Qed.

(** The table of a run on numpy's generator, whatever the state before. *)
Lemma threat_table_mt19937 (s0 : state mt19937) :
  fst (generate_mock_sat_threat_data mt19937 s0) = df_threats_42.
Proof.
  rewrite (threat_table_any_state mt19937 s0 (mt19937_seed 42)).
  vm_compute. reflexivity.
Qed.

Lemma findings_checked_all :
  forallb (fun segment =>
             forallb (fun thr => findings_check
                                   (high_risk thr (df_seg segment df_threats_42)))
                     thresholds)
          segments = true.
Proof. vm_compute. reflexivity. Qed.




(* ------------------------------------------------------------------ *)
(** ** The coverage table *)

Lemma combine_app_same {A B} (l1 l2 : list A) (m1 m2 : list B) :
  List.length l1 = List.length m1 ->
  combine (l1 ++ l2) (m1 ++ m2) = combine l1 m1 ++ combine l2 m2.
Proof.
  revert m1. induction l1 as [|a l1 IH]; intros [|b m1] Hlen;
    cbn in *; try discriminate; [reflexivity|].
  f_equal. apply IH. congruence.
Qed.

Lemma map_fst_combine_same {A B} (l : list A) (m : list B) :
  List.length l = List.length m -> map fst (combine l m) = l.
Proof.
  revert m. induction l as [|a l IH]; intros [|b m] Hlen;
    cbn in *; try discriminate; [reflexivity|].
  f_equal. apply IH. congruence.
Qed.

Lemma map_snd_combine_same {A B} (l : list A) (m : list B) :
  List.length l = List.length m -> map snd (combine l m) = m.
Proof.
  revert m. induction l as [|a l IH]; intros [|b m] Hlen;
    cbn in *; try discriminate; [reflexivity|].
  f_equal. apply IH. congruence.
Qed.

Section CoverageLoops.
Variable rng : RandomState.

Lemma choice_draws_length n : forall s,
  List.length (fst (choice_draws rng n s)) = n.
Proof.
  induction n as [|n IH]; intros s; cbn; [reflexivity|].
  unfold bind, np_random_choice, ret.
  destruct (choice rng coverage_levels s) as [c s1].
  specialize (IH s1). destruct (choice_draws rng n s1) as [cs s2].
  cbn in *. now rewrite IH.
Qed.

Lemma choice_draws_app n m : forall s,
  choice_draws rng (n + m) s
  = let (cs1, s1) := choice_draws rng n s in
    let (cs2, s2) := choice_draws rng m s1 in
    (cs1 ++ cs2, s2).
Proof.
  induction n as [|n IH]; intros s; cbn.
  - unfold ret. now destruct (choice_draws rng m s).
  - unfold bind, np_random_choice, ret.
    destruct (choice rng coverage_levels s) as [c s1].
    rewrite IH. destruct (choice_draws rng n s1) as [cs1 s2].
    now destruct (choice_draws rng m s2).
Qed.

Lemma choice_draws_levels (H : Lawful rng) n : forall s,
  Forall (fun c => In c coverage_levels) (fst (choice_draws rng n s)).
Proof.
  induction n as [|n IH]; intros s; cbn; [constructor|].
  unfold bind, np_random_choice, ret.
  pose proof (choice_in rng H coverage_levels s) as Hc.
  destruct (choice rng coverage_levels s) as [c s1].
  specialize (IH s1). destruct (choice_draws rng n s1) as [cs s2].
  cbn in *. constructor; [apply Hc; discriminate | exact IH].
Qed.

Lemma coverage_inner_run t techs : forall data s,
  for_each techs (coverage_row rng t) data s
  = let (cs, s') := choice_draws rng (List.length techs) s in
    (data ++ coverage_rows_of (map (pair t) techs) cs, s').
Proof.
  induction techs as [|tech techs IH]; intros data s;
    cbn [for_each List.length choice_draws map].
  - unfold ret, coverage_rows_of. cbn. now rewrite app_nil_r.
  - unfold bind at 1. unfold coverage_row at 1.
    unfold bind, np_random_choice, ret.
    destruct (choice rng coverage_levels s) as [c s1].
    rewrite IH. destruct (choice_draws rng (List.length techs) s1) as [cs s2].
    unfold coverage_rows_of. cbn [combine map fst snd].
    now rewrite <- app_assoc.
Qed.

Lemma coverage_rows_of_app k1 k2 c1 c2 :
  List.length k1 = List.length c1 ->
  coverage_rows_of (k1 ++ k2) (c1 ++ c2)
  = coverage_rows_of k1 c1 ++ coverage_rows_of k2 c2.
Proof.
  intros Hlen. unfold coverage_rows_of.
  now rewrite combine_app_same, map_app.
Qed.

Lemma coverage_rows_run ts techs : forall data s,
  coverage_rows rng ts techs data s
  = let (cs, s') := choice_draws rng (List.length ts * List.length techs) s in
    (data ++ coverage_rows_of (list_prod ts techs) cs, s').
Proof.
  unfold coverage_rows.
  induction ts as [|t ts IH]; intros data s;
    cbn [for_each List.length list_prod Nat.mul].
  - unfold ret, coverage_rows_of. cbn. now rewrite app_nil_r.
  - unfold bind. rewrite coverage_inner_run, choice_draws_app.
    pose proof (choice_draws_length (List.length techs) s) as Hlen.
    destruct (choice_draws rng (List.length techs) s) as [cs1 s1].
    rewrite IH.
    destruct (choice_draws rng (List.length ts * List.length techs) s1) as [cs2 s2].
    cbn in Hlen.
    change (map (fun y : string => (t, y)) techs) with (map (pair t) techs).
    rewrite coverage_rows_of_app by now rewrite length_map.
    now rewrite <- app_assoc.
Qed.

(** The generator is its 36 draws, taken from the state it is called in. *)
Lemma generate_mitre_like_matrix_run s :
  generate_mitre_like_matrix rng s
  = (coverage_rows_of (list_prod tactics techniques) (fst (choice_draws rng 36 s)),
     snd (choice_draws rng 36 s)).
Proof.
  unfold generate_mitre_like_matrix. rewrite coverage_rows_run.
  change (List.length tactics * List.length techniques)%nat with 36%nat.
  now destruct (choice_draws rng 36 s).
Qed.
End CoverageLoops.

Lemma coverage_rows_of_keys keys cs :
  List.length keys = List.length cs ->
  map (fun r => (row_Tactic r, row_Technique r)) (coverage_rows_of keys cs) = keys.
Proof.
  intros Hlen. unfold coverage_rows_of. rewrite map_map. cbn.
  rewrite <- (map_fst_combine_same keys cs Hlen) at 2.
  apply map_ext. now intros [[t tech] c].
Qed.

Lemma coverage_rows_of_levels keys cs :
  List.length keys = List.length cs ->
  map row_Coverage (coverage_rows_of keys cs) = cs.
Proof.
  intros Hlen. unfold coverage_rows_of. rewrite map_map. cbn.
  apply map_snd_combine_same. exact Hlen.
Qed.

(** Shape of the generated rows: the keys are the cross product in loop
    order, the levels are the successive draws. *)
Lemma generate_mitre_like_matrix_shape (rng : RandomState) (s : state rng) :
  let data := fst (generate_mitre_like_matrix rng s) in
  map (fun r => (row_Tactic r, row_Technique r)) data = list_prod tactics techniques
  /\ map row_Coverage data = fst (choice_draws rng 36 s).
Proof.
  cbv zeta. rewrite generate_mitre_like_matrix_run. cbn [fst].
  assert (Hlen : List.length (list_prod tactics techniques)
                 = List.length (fst (choice_draws rng 36 s)))
    by now rewrite choice_draws_length.
  split; [apply coverage_rows_of_keys | apply coverage_rows_of_levels]; exact Hlen.
Qed.

Lemma generate_mitre_like_matrix_levels (rng : RandomState) (H : Lawful rng)
    (s : state rng) :
  Forall (fun r => In (row_Coverage r) coverage_levels)
         (fst (generate_mitre_like_matrix rng s)).
Proof.
  apply Forall_map with (f := row_Coverage) (P := fun c => In c coverage_levels).
  rewrite (proj2 (generate_mitre_like_matrix_shape rng s)).
  apply choice_draws_levels, H.
Qed.

(** C4, as the code has it.  The coverage generator never seeds: its 36
    records, one per (Tactic, Technique) pair in loop order, carry the 36
    successive [choice] draws over None, Partial, Good taken from the
    state the generator is called in, and it leaves the state those draws
    lead to.  Hence two invocations return the same table exactly when
    their 36 draws agree, and every level is one of the three. *)
Theorem coverage_follows_state (rng : RandomState) (H : Lawful rng) (s : state rng) :
  let draws := choice_draws rng 36 s in
  let data := fst (generate_mitre_like_matrix rng s) in
  generate_mitre_like_matrix rng s
  = (coverage_rows_of (list_prod tactics techniques) (fst draws), snd draws)
  /\ List.length data = 36%nat
  /\ map (fun r => (row_Tactic r, row_Technique r)) data = list_prod tactics techniques
  /\ map row_Coverage data = fst draws
  /\ Forall (fun r => In (row_Coverage r) coverage_levels) data
  /\ (forall s', fst (generate_mitre_like_matrix rng s') = data
                 <-> fst (choice_draws rng 36 s') = fst draws).
Proof.
  cbv zeta.
  pose proof (fun s0 => proj2 (generate_mitre_like_matrix_shape rng s0)) as Hcov.
  cbv zeta in Hcov.
  split; [apply generate_mitre_like_matrix_run|].
  split.
  { rewrite <- (length_map row_Coverage), Hcov. apply choice_draws_length. }
  split; [apply generate_mitre_like_matrix_shape|].
  split; [apply Hcov|].
  split; [apply generate_mitre_like_matrix_levels, H|].
  intros s'. split.
  - intros Heq. rewrite <- !Hcov. now rewrite Heq.
  - intros Heq. rewrite !generate_mitre_like_matrix_run. cbn [fst]. now rewrite Heq.
Qed.

Lemma coverage_follows_state_witness :
  List.length (fst (generate_mitre_like_matrix lcg 7)) = 36%nat.
Proof. exact (proj1 (proj2 (coverage_follows_state lcg lcg_lawful 7))). Defined.

(** On the concrete source two isolated invocations, one after the other,
    do return different tables. *)
Example coverage_isolated_calls_differ :
  let first := generate_mitre_like_matrix lcg 7 in
  fst (generate_mitre_like_matrix lcg (snd first)) <> fst first.
Proof.
  cbv zeta. intros Heq.
  apply (f_equal (map row_Coverage)) in Heq.
  vm_compute in Heq. discriminate Heq.
Qed.

(* ------------------------------------------------------------------ *)
(** ** One run of the script after another *)

(** C10. The threat generator installs the seed 42 on the shared
    generator and the coverage generator draws right after it, so the
    coverage table (and its pivot) of a run does not depend on the state
    the run starts in, nor on the segment, threshold or sort: two runs,
    and in particular two successive runs, give equal coverage tables,
    namely the one drawn from the state the seeded threat generator
    leaves. *)
Theorem coverage_same_across_runs (rng : RandomState)
    (sort sort' : sort_values_desc) (segment segment' : string)
    (risk_threshold risk_threshold' : Z) (s s' : state rng) :
  let run1 := soc_tab rng sort segment risk_threshold s in
  let run2 := soc_tab rng sort' segment' risk_threshold' s' in
  let next := soc_tab rng sort' segment' risk_threshold' (snd run1) in
  tab_df_mitre (fst run1) = tab_df_mitre (fst run2)
  /\ tab_pivot (fst run1) = tab_pivot (fst run2)
  /\ tab_df_mitre (fst next) = tab_df_mitre (fst run1)
  /\ tab_pivot (fst next) = tab_pivot (fst run1)
  /\ tab_df_mitre (fst run1)
     = assign_CoverageScore
         (fst (generate_mitre_like_matrix rng
                 (snd (threat_rows rng threats cia_dim [] (seed rng 42))))).
Proof.
  cbv zeta.
  assert (Hrun : forall srt seg thr s0,
             tab_df_mitre (fst (soc_tab rng srt seg thr s0))
             = assign_CoverageScore
                 (fst (generate_mitre_like_matrix rng
                         (snd (threat_rows rng threats cia_dim [] (seed rng 42)))))
             /\ tab_pivot (fst (soc_tab rng srt seg thr s0))
                = pivot_table (assign_CoverageScore
                    (fst (generate_mitre_like_matrix rng
                            (snd (threat_rows rng threats cia_dim [] (seed rng 42))))))).
  { intros srt seg thr s0.
    unfold soc_tab, generate_mock_sat_threat_data, bind, np_random_seed, ret.
    destruct (threat_rows rng threats cia_dim [] (seed rng 42)) as [rows st].
    cbn [snd]. destruct (generate_mitre_like_matrix rng st) as [data st'].
    split; reflexivity. }
  repeat split.
  - now rewrite !(proj1 (Hrun _ _ _ _)).
  - now rewrite !(proj2 (Hrun _ _ _ _)).
  - now rewrite !(proj1 (Hrun _ _ _ _)).
  - now rewrite !(proj2 (Hrun _ _ _ _)).
  - apply Hrun.
Qed.

(** C4 as stated fails in the program: the coverage tables of two
    successive runs of the script are the same table, here on the concrete
    source and from the start state 7. *)
Lemma coverage_repeats_across_runs :
  let run := soc_tab lcg (insertion_sort_desc true) "All" 9 in
  let first := run 7 in
  let second := run (snd first) in
  snd first <> 7
  /\ firstn 6 (map Coverage (tab_df_mitre (fst first)))
     = [ "Partial"; "None"; "Good"; "Partial"; "None"; "Good" ]
  /\ ~ tab_df_mitre (fst second) <> tab_df_mitre (fst first).
Proof.
  cbv zeta. split; [vm_compute; discriminate|].
  split; [vm_compute; reflexivity|].
  intros Hneq. apply Hneq. vm_compute. reflexivity.
Qed.

(* ------------------------------------------------------------------ *)
(** ** The pivoted coverage matrix *)

Lemma insert_unique_In x y l : In y (insert_unique x l) <-> y = x \/ In y l.
Proof.
  induction l as [|z l IH]; cbn.
  - intuition congruence.
  - destruct (String.compare x z) eqn:Hc; cbn.
    + apply String.compare_eq_iff in Hc. subst z. intuition congruence.
    + intuition congruence.
    + rewrite IH. intuition congruence.
Qed.

Lemma sorted_unique_In y l : In y (sorted_unique l) <-> In y l.
Proof.
  induction l as [|x l IH]; cbn; [reflexivity|].
  rewrite insert_unique_In, IH. intuition congruence.
Qed.

Lemma lookup_map {A} (f : string -> A) k keys :
  In k keys -> lookup k keys (map f keys) = Some (f k).
Proof.
  induction keys as [|k' keys IH]; cbn; [contradiction|].
  intros Hin. destruct (String.eqb_spec k k') as [->|Hne]; [reflexivity|].
  apply IH. destruct Hin; congruence.
Qed.

(** A cell whose labels occur in the table is the mean of its group. *)
Lemma pivot_cell_mean df tech tac :
  let valid := filter has_score df in
  In tech (map Technique valid) -> In tac (map Tactic valid) ->
  pivot_cell (pivot_table df) tech tac = mean (group_values valid tech tac).
Proof.
  cbv zeta. intros Htech Htac. unfold pivot_cell, pivot_table.
  cbn [index columns values].
  rewrite lookup_map by now apply sorted_unique_In.
  rewrite lookup_map by now apply sorted_unique_In.
  reflexivity.
Qed.

Lemma filter_all {A} (f : A -> bool) l :
  Forall (fun a => f a = true) l -> filter f l = l.
Proof.
  induction 1 as [|a l Ha _ IH]; cbn; [reflexivity|]. now rewrite Ha, IH.
Qed.

Lemma group_values_cons r df tech tac :
  group_values (r :: df) tech tac
  = (if String.eqb (Technique r) tech && String.eqb (Tactic r) tac
     then match CoverageScore r with Some v => [v] | None => [] end
     else []) ++ group_values df tech tac.
Proof. reflexivity. Qed.

Lemma group_values_absent df tech tac :
  ~ In (tac, tech) (map coverage_key df) -> group_values df tech tac = [].
Proof.
  induction df as [|r df IH]; [reflexivity|].
  rewrite group_values_cons. cbn [map In]. intros Hnot.
  destruct (String.eqb_spec (Technique r) tech) as [<-|];
    destruct (String.eqb_spec (Tactic r) tac) as [<-|]; cbn;
    try (apply IH; tauto).
  exfalso. apply Hnot. now left.
Qed.

(** With one row per (Tactic, Technique) pair a group is a single score. *)
Lemma group_values_single df r v :
  NoDup (map coverage_key df) -> In r df -> CoverageScore r = Some v ->
  group_values df (Technique r) (Tactic r) = [v].
Proof.
  induction df as [|x df IH]; [contradiction|].
  rewrite group_values_cons. cbn [map In].
  intros Hnd [->|Hin] Hv; apply NoDup_cons_iff in Hnd as [Hx Hnd].
  - rewrite !String.eqb_refl, Hv. cbn [andb app].
    now rewrite group_values_absent.
  - rewrite (IH Hnd Hin Hv).
    destruct (String.eqb_spec (Technique x) (Technique r)) as [Ht|]; [|reflexivity].
    destruct (String.eqb_spec (Tactic x) (Tactic r)) as [Hc|]; [|reflexivity].
    exfalso. apply Hx. unfold coverage_key at 1. rewrite Ht, Hc.
    now apply (in_map coverage_key) in Hin.
Qed.

Lemma dict_get_coverage_level c :
  In c coverage_levels ->
  exists v, dict_get coverage_map c = Some v /\ (v = 0 \/ v = 1 \/ v = 2).
Proof.
  intros [<-|[<-|[<-|[]]]]; cbn; eauto.
Qed.

Lemma mean_single v :
  v = 0 \/ v = 1 \/ v = 2 -> mean [v] = Some (inject_Z v).
Proof. intros [ -> | [ -> | -> ] ]; reflexivity. Qed.

Lemma assign_CoverageScore_keys rows :
  map coverage_key (assign_CoverageScore rows)
  = map (fun r => (row_Tactic r, row_Technique r)) rows.
Proof. unfold assign_CoverageScore. now rewrite map_map. Qed.

Lemma assign_CoverageScore_scored rows :
  Forall (fun r => In (row_Coverage r) coverage_levels) rows ->
  Forall (fun r => exists v, CoverageScore r = Some v /\ (v = 0 \/ v = 1 \/ v = 2))
         (assign_CoverageScore rows).
Proof.
  intros H. unfold assign_CoverageScore. apply Forall_map.
  eapply Forall_impl; [|exact H]. intros r Hr. cbn.
  now apply dict_get_coverage_level.
Qed.

Section PivotOfGenerated.
Variable df : list CoverageRecord.
Hypothesis df_keys : map coverage_key df = list_prod tactics techniques.
Hypothesis df_scored :
  Forall (fun r => exists v, CoverageScore r = Some v /\ (v = 0 \/ v = 1 \/ v = 2)) df.

Lemma generated_valid : filter has_score df = df.
Proof.
  apply filter_all. eapply Forall_impl; [|exact df_scored].
  intros r (v & Hv & _). unfold has_score. now rewrite Hv.
Qed.

Lemma generated_index :
  index (pivot_table df)
  = [ "Backdoor in Ground SW"; "C2 via Compromised GS";
      "Orbit/Attitude Manipulation"; "Phishing Ground Staff";
      "RF Scanning"; "SATCOM Protocol Abuse" ].
Proof.
  unfold pivot_table. cbn [index]. rewrite generated_valid.
  replace (map Technique df) with (map snd (map coverage_key df))
    by (rewrite map_map; reflexivity).
  rewrite df_keys. reflexivity.
Qed.

Lemma generated_columns :
  columns (pivot_table df)
  = [ "Command & Control"; "Execution"; "Impact"; "Initial Access";
      "Persistence"; "Reconnaissance" ].
Proof.
  unfold pivot_table. cbn [columns]. rewrite generated_valid.
  replace (map Tactic df) with (map fst (map coverage_key df))
    by (rewrite map_map; reflexivity).
  rewrite df_keys. reflexivity.
Qed.

Lemma generated_cell tech tac :
  In tech techniques -> In tac tactics ->
  exists r v,
    In r df /\ Technique r = tech /\ Tactic r = tac
    /\ CoverageScore r = Some v /\ (v = 0 \/ v = 1 \/ v = 2)
    /\ group_values df tech tac = [v]
    /\ pivot_cell (pivot_table df) tech tac = mean [v]
    /\ pivot_cell (pivot_table df) tech tac = Some (inject_Z v).
Proof.
  intros Htech Htac.
  assert (Hkey : In (tac, tech) (map coverage_key df))
    by (rewrite df_keys; now apply in_prod).
  apply in_map_iff in Hkey as (r & Hr & Hin).
  injection Hr as Hrt Hrc.
  pose proof (proj1 (Forall_forall _ _) df_scored r Hin) as (v & Hv & H012).
  assert (Hnd : NoDup (map coverage_key df)).
  { rewrite df_keys. apply NoDup_list_prod; apply NoDup_strings; reflexivity. }
  pose proof (group_values_single df r v Hnd Hin Hv) as Hg.
  rewrite Hrt, Hrc in Hg.
  assert (Hcell : pivot_cell (pivot_table df) tech tac = mean [v]).
  { rewrite pivot_cell_mean; rewrite generated_valid.
    - now rewrite Hg.
    - rewrite <- Hrc. now apply in_map.
    - rewrite <- Hrt. now apply in_map. }
  exists r, v. repeat split; try assumption.
  rewrite Hcell. now apply mean_single.
Qed.

Lemma generated_values :
  List.length (values (pivot_table df)) = 6%nat
  /\ Forall (fun row => List.length row = 6%nat) (values (pivot_table df))
  /\ Forall (Forall cell_012) (values (pivot_table df)).
Proof.
  pose proof generated_index as Hi. pose proof generated_columns as Hc.
  unfold pivot_table in *. cbn [index columns values] in *.
  rewrite Hi, Hc. split; [reflexivity|]. split.
  - repeat constructor.
  - rewrite <- Hi, <- Hc.
    apply Forall_map, Forall_forall. intros tech Htech.
    apply Forall_map, Forall_forall. intros tac Htac.
    assert (Ht : In tech techniques)
      by (rewrite Hi in Htech; cbn in Htech |- *; tauto).
    assert (Hc' : In tac tactics)
      by (rewrite Hc in Htac; cbn in Htac |- *; tauto).
    destruct (generated_cell tech tac Ht Hc')
      as (r & v & _ & _ & _ & _ & H012 & Hg & _ & _).
    rewrite generated_valid, Hg. unfold cell_012.
    destruct H012 as [ -> | [ -> | -> ] ]; cbn; auto.
Qed.
End PivotOfGenerated.

(** C7. For every random source keeping numpy's contract for [choice],
    the pivot of the generated coverage table has the 6 techniques as
    rows and the 6 tactics as columns; every cell is populated and holds
    0, 1 or 2: it is the mean of its group, the group is one record, and
    the mean is that record's score under the fixed mapping: the cell of
    a None record is 0, of a Partial record 1, of a Good record 2 (a label
    outside the three has no score). *)
Theorem pivot_complete (rng : RandomState) (H : Lawful rng) (s : state rng) :
  let df := assign_CoverageScore (fst (generate_mitre_like_matrix rng s)) in
  let pivot := pivot_table df in
  List.length (index pivot) = 6%nat
  /\ List.length (columns pivot) = 6%nat
  /\ (forall tech, In tech (index pivot) <-> In tech techniques)
  /\ (forall tac, In tac (columns pivot) <-> In tac tactics)
  /\ List.length (values pivot) = 6%nat
  /\ Forall (fun row => List.length row = 6%nat) (values pivot)
  /\ Forall (Forall cell_012) (values pivot)
  /\ (forall tech tac, In tech techniques -> In tac tactics ->
        exists r v,
          In r df /\ Technique r = tech /\ Tactic r = tac
          /\ CoverageScore r = dict_get coverage_map (Coverage r)
          /\ CoverageScore r = Some v /\ (v = 0 \/ v = 1 \/ v = 2)
          /\ group_values df tech tac = [v]
          /\ pivot_cell pivot tech tac = mean [v]
          /\ pivot_cell pivot tech tac = Some (inject_Z v)
          /\ ((Coverage r = "None" /\ v = 0)
              \/ (Coverage r = "Partial" /\ v = 1)
              \/ (Coverage r = "Good" /\ v = 2)))
  /\ dict_get coverage_map "None" = Some 0
  /\ dict_get coverage_map "Partial" = Some 1
  /\ dict_get coverage_map "Good" = Some 2
  /\ (forall c, ~ In c coverage_levels -> dict_get coverage_map c = None).
Proof.
  cbv zeta.
  destruct (generate_mitre_like_matrix_shape rng s) as [Hk _].
  pose proof (generate_mitre_like_matrix_levels rng H s) as Hl.
  set (df := assign_CoverageScore (fst (generate_mitre_like_matrix rng s))).
  assert (Hkeys : map coverage_key df = list_prod tactics techniques)
    by (unfold df; now rewrite assign_CoverageScore_keys).
  assert (Hsc : Forall (fun r => exists v, CoverageScore r = Some v
                                           /\ (v = 0 \/ v = 1 \/ v = 2)) df)
    by (apply assign_CoverageScore_scored, Hl).
  pose proof (generated_index df Hkeys Hsc) as Hi.
  pose proof (generated_columns df Hkeys Hsc) as Hc.
  destruct (generated_values df Hkeys Hsc) as (Hv1 & Hv2 & Hv3).
  split; [now rewrite Hi|]. split; [now rewrite Hc|].
  split; [intros tech; rewrite Hi; cbn; tauto|].
  split; [intros tac; rewrite Hc; cbn; tauto|].
  split; [exact Hv1|]. split; [exact Hv2|]. split; [exact Hv3|].
  split.
  - intros tech tac Htech Htac.
    destruct (generated_cell df Hkeys Hsc tech tac Htech Htac)
      as (r & v & Hin & Ht & Hc' & Hv & H012 & Hg & Hm & Hcell).
    assert (Hmap : CoverageScore r = dict_get coverage_map (Coverage r)
                   /\ In (Coverage r) coverage_levels).
    { unfold df, assign_CoverageScore in Hin.
      apply in_map_iff in Hin as (row & <- & Hrow). split; [reflexivity|].
      rewrite Forall_forall in Hl. exact (Hl row Hrow). }
    destruct Hmap as [Hd Hlev].
    exists r, v. repeat split; try assumption.
    rewrite Hv in Hd. cbn in Hlev.
    destruct Hlev as [ Hc0 | [ Hc0 | [ Hc0 | [] ] ] ]; rewrite <- Hc0 in Hd |- *;
      cbn in Hd; injection Hd as ->; auto 6.
  - repeat split.
    intros c Hc0. cbn in Hc0 |- *.
    destruct (String.eqb_spec c "None"); [subst c; exfalso; apply Hc0; auto|].
    destruct (String.eqb_spec c "Partial"); [subst c; exfalso; apply Hc0; auto|].
    destruct (String.eqb_spec c "Good"); [subst c; exfalso; apply Hc0; auto|].
    reflexivity.
Qed.

Lemma pivot_complete_witness :
  Forall (Forall cell_012)
    (values (pivot_table
               (assign_CoverageScore (fst (generate_mitre_like_matrix lcg 7))))).
Proof.
  exact (proj1 (proj2 (proj2 (proj2 (proj2 (proj2 (proj2
           (pivot_complete lcg lcg_lawful 7)))))))).
Defined.

(** The same matrix, computed on the concrete source. *)
Example pivot_on_lcg :
  values (pivot_table
            (assign_CoverageScore (fst (generate_mitre_like_matrix lcg 7))))
  = map (map (fun v => Some (inject_Z v)))
        [ [0; 1; 2; 2; 2; 0];
          [2; 1; 0; 2; 0; 2];
          [2; 2; 1; 1; 0; 2];
          [2; 2; 1; 2; 2; 2];
          [1; 2; 2; 0; 1; 1];
          [1; 2; 1; 2; 0; 2] ].
Proof. vm_compute. reflexivity. Qed.

(* ------------------------------------------------------------------ *)
(** ** Orbital period and velocity *)

Local Open Scope R_scope.

Lemma MU_EARTH_pos : 0 < MU_EARTH.
Proof. unfold MU_EARTH. lra. Qed.

Lemma R_EARTH_pos : 0 < R_EARTH.
Proof. unfold R_EARTH. lra. Qed.

Lemma cube_lt a b : 0 < a -> a < b -> a ^ 3 < b ^ 3.
Proof.
  intros Ha Hab.
  replace (a ^ 3) with (a * (a * a)) by ring.
  replace (b ^ 3) with (b * (b * b)) by ring.
  assert (H2 : a * a < b * b) by nra.
  assert (0 < a * a) by nra.
  nra.
Qed.

Lemma kepler_period_pos a : 0 < a -> 0 < kepler_period a.
Proof.
  intros Ha. unfold kepler_period.
  apply Rmult_lt_0_compat; [pose proof PI_RGT_0; lra|].
  apply sqrt_lt_R0. apply Rdiv_lt_0_compat; [|exact MU_EARTH_pos].
  apply pow_lt. exact Ha.
Qed.

Lemma kepler_period_increasing a b : 0 < a -> a < b -> kepler_period a < kepler_period b.
Proof.
  intros Ha Hab. unfold kepler_period.
  apply Rmult_lt_compat_l; [pose proof PI_RGT_0; lra|].
  pose proof MU_EARTH_pos as Hmu.
  assert (Ha3 : 0 < a ^ 3) by (apply pow_lt; exact Ha).
  pose proof (cube_lt a b Ha Hab) as H3.
  apply sqrt_lt_1.
  - apply Rlt_le, Rdiv_lt_0_compat; assumption.
  - apply Rlt_le, Rdiv_lt_0_compat; [lra | assumption].
  - unfold Rdiv. apply Rmult_lt_compat_r; [apply Rinv_0_lt_compat; exact Hmu | exact H3].
Qed.

Lemma orbital_velocity_pos a : 0 < a -> 0 < orbital_velocity a.
Proof.
  intros Ha. unfold orbital_velocity.
  apply sqrt_lt_R0, Rdiv_lt_0_compat; [exact MU_EARTH_pos | exact Ha].
Qed.

Lemma orbital_velocity_decreasing a b :
  0 < a -> a < b -> orbital_velocity b < orbital_velocity a.
Proof.
  intros Ha Hab. unfold orbital_velocity.
  pose proof MU_EARTH_pos as Hmu.
  apply sqrt_lt_1.
  - apply Rlt_le, Rdiv_lt_0_compat; lra.
  - apply Rlt_le, Rdiv_lt_0_compat; lra.
  - unfold Rdiv. apply Rmult_lt_compat_l; [exact Hmu|].
    apply Rinv_lt_contravar; [apply Rmult_lt_0_compat; lra | exact Hab].
Qed.

(** X16. On a [float] or Python [int] argument: for every altitude >= 0 (in
    metres, semi-major axis [R_EARTH + altitude]) the period
    2 pi sqrt((R_EARTH + altitude)^3 / mu) is positive and increases with
    the altitude, and the velocity sqrt(mu / (R_EARTH + altitude)) is
    positive and decreases with it; the same holds of the key outputs the
    script computes from the altitude slider.  The sweep does not call
    [kepler_period] this way: it passes an [np.int64]. *)
Theorem period_velocity_monotone :
  (forall altitude, 0 <= altitude ->
     kepler_period (R_EARTH + altitude)
     = 2 * PI * sqrt ((R_EARTH + altitude) ^ 3 / MU_EARTH)
     /\ 0 < kepler_period (R_EARTH + altitude)
     /\ orbital_velocity (R_EARTH + altitude) = sqrt (MU_EARTH / (R_EARTH + altitude))
     /\ 0 < orbital_velocity (R_EARTH + altitude))
  /\ (forall alt1 alt2, 0 <= alt1 -> alt1 < alt2 ->
        kepler_period (R_EARTH + alt1) < kepler_period (R_EARTH + alt2)
        /\ orbital_velocity (R_EARTH + alt2) < orbital_velocity (R_EARTH + alt1))
  /\ (forall alt1 alt2, 0 <= alt1 -> alt1 <= alt2 ->
        kepler_period (R_EARTH + alt1) <= kepler_period (R_EARTH + alt2)
        /\ orbital_velocity (R_EARTH + alt2) <= orbital_velocity (R_EARTH + alt1))
  /\ (forall km1 km2, 0 <= km1 -> km1 < km2 ->
        0 < fst (key_orbital_outputs km1) < fst (key_orbital_outputs km2)
        /\ 0 < snd (key_orbital_outputs km2) < snd (key_orbital_outputs km1)).
Proof.
  pose proof R_EARTH_pos as Hr.
  assert (Hstrict : forall alt1 alt2, 0 <= alt1 -> alt1 < alt2 ->
             kepler_period (R_EARTH + alt1) < kepler_period (R_EARTH + alt2)
             /\ orbital_velocity (R_EARTH + alt2) < orbital_velocity (R_EARTH + alt1)).
  { intros alt1 alt2 H1 H12. split.
    - apply kepler_period_increasing; lra.
    - apply orbital_velocity_decreasing; lra. }
  split; [|split; [exact Hstrict|split]].
  - intros altitude Ha. repeat split.
    + apply kepler_period_pos. lra.
    + apply orbital_velocity_pos. lra.
  - intros alt1 alt2 H1 H12. destruct (Req_dec alt1 alt2) as [->|Hne].
    + split; apply Rle_refl.
    + destruct (Hstrict alt1 alt2 H1) as [Hp Hv]; [lra|]. split; lra.
  - intros km1 km2 H1 H12. unfold key_orbital_outputs. cbn [fst snd].
    destruct (Hstrict (km1 * 1000) (km2 * 1000)) as [Hp Hv]; [lra | lra |].
    repeat split; try assumption.
    + apply kepler_period_pos. lra.
    + apply orbital_velocity_pos. lra.
Qed.

Lemma kepler_period_int64_nonneg a :
  (0 <= int64_cube a)%Z ->
  kepler_period_int64 a = Some (2 * PI * sqrt (IZR (int64_cube a) / MU_EARTH)).
Proof.
  intros H. unfold kepler_period_int64, np_sqrt.
  destruct (Rle_dec 0 (IZR (int64_cube a) / MU_EARTH)) as [_|Hneg]; [reflexivity|].
  exfalso. apply Hneg. apply Rmult_le_pos; [apply IZR_le; exact H|].
  apply Rlt_le, Rinv_0_lt_compat, MU_EARTH_pos.
Qed.

Lemma kepler_period_int64_neg a :
  (int64_cube a < 0)%Z -> kepler_period_int64 a = None.
Proof.
  intros H. unfold kepler_period_int64, np_sqrt.
  destruct (Rle_dec 0 (IZR (int64_cube a) / MU_EARTH)) as [Hpos|_]; [|reflexivity].
  exfalso. apply IZR_lt in H. pose proof MU_EARTH_pos as Hmu.
  assert (Hq : IZR (int64_cube a) / MU_EARTH < 0).
  { unfold Rdiv. rewrite <- (Rmult_0_l (/ MU_EARTH)).
    apply Rmult_lt_compat_r; [apply Rinv_0_lt_compat; exact Hmu | exact H]. }
  lra.
Qed.

(** C6, the code at the default sweep (300 to 2000 km in steps of 500).
    The sweep calls [kepler_period] on [np.int64] semi-major axes, whose
    cube wraps: the period of the 800 km row is NaN, not a positive
    number, and the period of the 2300 km row is below that of the 1300 km
    row, where the formula of the claim is positive at 800 km and larger
    at 2300 km than at 1300 km. *)
Theorem sweep_period_not_monotone :
  let stats := df_orbit_stats 300 2000 500 in
  Altitude_km stats = [300; 800; 1300; 1800; 2300]%Z
  /\ a_sweep 800 = 7171000%Z
  /\ int64_cube (a_sweep 800) = (-178820263191032320)%Z
  /\ nth 1 (Period_min stats) (Some 0) = None
  /\ (exists T1300 T2300,
        nth 2 (Period_min stats) None = Some T1300
        /\ nth 4 (Period_min stats) None = Some T2300
        /\ 0 < T2300 < T1300)
  /\ 0 < kepler_period (R_EARTH + 800 * 1000)
  /\ kepler_period (R_EARTH + 1300 * 1000) < kepler_period (R_EARTH + 2300 * 1000).
Proof.
  cbv zeta.
  assert (Halt : Altitude_km (df_orbit_stats 300 2000 500)
                 = [300; 800; 1300; 1800; 2300]%Z) by reflexivity.
  split; [exact Halt|]. split; [reflexivity|]. split; [reflexivity|].
  unfold df_orbit_stats. cbv zeta. cbn [Period_min].
  change (np_arange 300 (2000 + 500) 500) with [300; 800; 1300; 1800; 2300]%Z.
  cbn [map nth].
  pose proof MU_EARTH_pos as Hmu. pose proof PI_RGT_0 as Hpi.
  split; [now rewrite kepler_period_int64_neg|].
  split.
  - rewrite !kepler_period_int64_nonneg by (vm_compute; discriminate).
    eexists _, _. split; [reflexivity|]. split; [reflexivity|].
    replace (int64_cube (a_sweep 1300)) with 8672314941970761216%Z by reflexivity.
    replace (int64_cube (a_sweep 2300)) with 6303853131165693440%Z by reflexivity.
    assert (H1 : 0 < 6303853131165693440 / MU_EARTH)
      by (apply Rdiv_lt_0_compat; lra).
    assert (H2 : 6303853131165693440 / MU_EARTH < 8672314941970761216 / MU_EARTH).
    { unfold Rdiv. apply Rmult_lt_compat_r; [apply Rinv_0_lt_compat; exact Hmu | lra]. }
    pose proof (sqrt_lt_R0 _ H1) as Hs1.
    assert (Hs : sqrt (6303853131165693440 / MU_EARTH)
                 < sqrt (8672314941970761216 / MU_EARTH))
      by (apply sqrt_lt_1; lra).
    assert (Hp : 2 * PI * sqrt (6303853131165693440 / MU_EARTH)
                 < 2 * PI * sqrt (8672314941970761216 / MU_EARTH))
      by (apply Rmult_lt_compat_l; lra).
    assert (Hz : 0 < 2 * PI * sqrt (6303853131165693440 / MU_EARTH))
      by (apply Rmult_lt_0_compat; lra).
    lra.
  - pose proof R_EARTH_pos as Hr. split.
    + apply kepler_period_pos. lra.
    + apply kepler_period_increasing; lra.
Qed.

(* ------------------------------------------------------------------ *)
(** ** Link budget *)

(** C9. The link budget is eirp - path_loss + rx_gain - sys_loss -
    noise_figure for all inputs: it is defined everywhere, moves by +d
    when eirp or rx_gain moves by d and by -d when path_loss, sys_loss or
    noise_figure does, and is -117 at (45, 190, 35, 3, 4). *)
Theorem link_budget_linear (eirp path_loss rx_gain sys_loss noise_figure d : R) :
  satellite_link_budget eirp path_loss rx_gain sys_loss noise_figure
  = eirp - path_loss + rx_gain - sys_loss - noise_figure
  /\ satellite_link_budget (eirp + d) path_loss rx_gain sys_loss noise_figure
     = satellite_link_budget eirp path_loss rx_gain sys_loss noise_figure + d
  /\ satellite_link_budget eirp (path_loss + d) rx_gain sys_loss noise_figure
     = satellite_link_budget eirp path_loss rx_gain sys_loss noise_figure - d
  /\ satellite_link_budget eirp path_loss (rx_gain + d) sys_loss noise_figure
     = satellite_link_budget eirp path_loss rx_gain sys_loss noise_figure + d
  /\ satellite_link_budget eirp path_loss rx_gain (sys_loss + d) noise_figure
     = satellite_link_budget eirp path_loss rx_gain sys_loss noise_figure - d
  /\ satellite_link_budget eirp path_loss rx_gain sys_loss (noise_figure + d)
     = satellite_link_budget eirp path_loss rx_gain sys_loss noise_figure - d
  /\ satellite_link_budget 45 190 35 3 4 = -117.
Proof. unfold satellite_link_budget. repeat split; lra. Qed.

Local Close Scope R_scope.

(* ------------------------------------------------------------------ *)
(** ** The orbit trace *)

Local Open Scope R_scope.

Lemma linspace_length start stop num : List.length (linspace start stop num) = num.
Proof. unfold linspace. now rewrite length_map, length_seq. Qed.

(** With at least two samples, sample [i] is [start + i * step]: the last
    one, set to [stop], is on the grid too. *)
Lemma linspace_nth start stop num i d :
  (2 <= num)%nat -> (i < num)%nat ->
  nth i (linspace start stop num) d
  = start + INR i * ((stop - start) / (INR num - 1)).
Proof.
  intros Hnum Hi. unfold linspace. cbv zeta.
  set (f := fun j : nat => if (Nat.eqb (S j) num && Nat.ltb 1 num)%bool then stop
                           else start + INR j * ((stop - start) / (INR num - 1))).
  rewrite (nth_indep _ d (f 0%nat)) by now rewrite length_map, length_seq.
  rewrite map_nth, seq_nth by assumption. unfold f. cbn [Nat.add].
  destruct (Nat.eqb_spec (S i) num) as [Heq|Hne]; cbn [andb]; [|reflexivity].
  destruct (Nat.ltb_spec 1 num) as [_|Hlt]; [|lia].
  assert (Hn : INR num - 1 = INR i) by (rewrite <- Heq, S_INR; ring).
  rewrite Hn.
  assert (INR i <> 0) by (apply not_0_INR; lia).
  field. assumption.
Qed.

Lemma combine_map_same {A B C} (f : A -> B) (g : A -> C) l :
  combine (map f l) (map g l) = map (fun a => (f a, g a)) l.
Proof. induction l as [|a l IH]; cbn; [reflexivity | now rewrite IH]. Qed.

Lemma orbit_points_map altitude_km points :
  orbit_points (generate_orbit_3d altitude_km points)
  = map (fun t => ((R_EARTH + altitude_km * 1000) * cos t,
                   (R_EARTH + altitude_km * 1000) * sin t, 0))
        (linspace 0 (2 * np_pi) points).
Proof.
  unfold orbit_points, generate_orbit_3d. cbv zeta.
  now rewrite !combine_map_same.
Qed.

Lemma orbit_point_nth altitude_km points i d :
  (2 <= points)%nat -> (i < points)%nat ->
  nth i (orbit_points (generate_orbit_3d altitude_km points)) d
  = ((R_EARTH + altitude_km * 1000) * cos (INR i * (2 * np_pi / (INR points - 1))),
     (R_EARTH + altitude_km * 1000) * sin (INR i * (2 * np_pi / (INR points - 1))),
     0).
Proof.
  intros Hp Hi. rewrite orbit_points_map.
  set (f := fun t : R => ((R_EARTH + altitude_km * 1000) * cos t,
                          (R_EARTH + altitude_km * 1000) * sin t, 0)).
  rewrite (nth_indep _ d (f 0)) by now rewrite length_map, linspace_length.
  rewrite map_nth, (linspace_nth 0 (2 * np_pi) points i 0 Hp Hi). unfold f.
  replace (0 + INR i * ((2 * np_pi - 0) / (INR points - 1)))
    with (INR i * (2 * np_pi / (INR points - 1))) by (unfold Rdiv; ring).
  reflexivity.
Qed.

Lemma orbit_point_first altitude_km points d :
  (2 <= points)%nat ->
  nth 0 (orbit_points (generate_orbit_3d altitude_km points)) d
  = (R_EARTH + altitude_km * 1000, 0, 0).
Proof.
  intros Hp. rewrite orbit_point_nth by lia.
  replace (INR 0 * (2 * np_pi / (INR points - 1))) with 0 by (cbn; ring).
  now rewrite cos_0, sin_0, Rmult_1_r, Rmult_0_r.
Qed.

Lemma orbit_point_last altitude_km points d :
  (2 <= points)%nat ->
  nth (points - 1) (orbit_points (generate_orbit_3d altitude_km points)) d
  = ((R_EARTH + altitude_km * 1000) * cos (2 * np_pi),
     (R_EARTH + altitude_km * 1000) * sin (2 * np_pi), 0).
Proof.
  intros Hp. rewrite orbit_point_nth by lia.
  assert (Hn : INR points - 1 <> 0).
  { replace (INR points - 1) with (INR (points - 1)).
    - apply not_0_INR. lia.
    - rewrite minus_INR by lia. reflexivity. }
  replace (INR (points - 1) * (2 * np_pi / (INR points - 1))) with (2 * np_pi).
  - reflexivity.
  - rewrite minus_INR by lia. cbn [INR]. field. exact Hn.
Qed.

Lemma on_circle r t : (r * cos t) * (r * cos t) + (r * sin t) * (r * sin t) + 0 * 0 = r * r.
Proof.
  pose proof (sin2_cos2 t) as H. unfold Rsqr in H.
  replace (r * cos t * (r * cos t) + r * sin t * (r * sin t) + 0 * 0)
    with (r * r * (sin t * sin t + cos t * cos t)) by ring.
  rewrite H. ring.
Qed.

(** The partial sums of Machin's series for pi / 4, as rational numbers. *)
Ltac machin_terms :=
  cbn [Nat.mul Nat.add sum_f_R0];
  unfold tg_alt, PI_2_3_7_tg, Ratan_seq;
  cbn [Nat.mul Nat.add];
  repeat match goal with
         | |- context [INR ?n] =>
             let z := eval vm_compute in (Z.of_nat n) in
             replace (INR n) with (IZR z) by (rewrite INR_IZR_INZ; reflexivity)
         end.

(** [np.pi] is below pi, by less than 1.3e-16. *)
Lemma np_pi_lt_PI : np_pi < PI.
Proof.
  pose proof (PI_2_3_7_ineq 8) as [Hlow _].
  apply Rlt_le_trans with (4 * sum_f_R0 (tg_alt PI_2_3_7_tg) (S (2 * 8))); [|lra].
  clear Hlow. unfold np_pi. machin_terms. lra.
Qed.

Lemma PI_lt_np_pi : PI < np_pi + 13 / 100000000000000000.
Proof.
  pose proof (PI_2_3_7_ineq 9) as [_ Hup].
  apply Rle_lt_trans with (4 * sum_f_R0 (tg_alt PI_2_3_7_tg) (2 * 9)); [lra|].
  clear Hup. unfold np_pi. machin_terms. lra.
Qed.

(** The sine of the last angle of the trace: negative, and within
    2.6e-16 of 0. *)
Lemma sin_2_np_pi : - (26 / 100000000000000000) < sin (2 * np_pi) < 0.
Proof.
  pose proof np_pi_lt_PI as Hlo. pose proof PI_lt_np_pi as Hhi.
  pose proof PI_RGT_0 as Hpi. pose proof PI2_1 as Hpi2.
  set (delta := 2 * (PI - np_pi)).
  assert (Hd : 0 < delta < 26 / 100000000000000000) by (unfold delta; lra).
  assert (Hsin : sin (2 * np_pi) = - sin delta).
  { replace (2 * np_pi) with (2 * PI - delta) by (unfold delta; ring).
    rewrite sin_minus, sin_2PI, cos_2PI. ring. }
  rewrite Hsin.
  assert (H0 : 0 < sin delta) by (apply sin_gt_0; lra).
  assert (H1 : sin delta < delta) by (apply sin_lt_x; lra).
  lra.
Qed.

(** C5, as the code has it.  For every altitude in kilometres and every
    [points >= 2] the trace has [points] points
    (r cos theta_i, r sin theta_i, 0), theta_i = i * (2 np.pi) / (points - 1)
    running from 0 to 2 np.pi, with r = R_EARTH + 1000 * altitude_km (the
    altitude in metres); the first point is (r, 0, 0); the last point is
    (r cos (2 np.pi), r sin (2 np.pi), 0), where sin (2 np.pi) is negative
    and within 2.6e-16 of 0 because [np.pi] is below pi, so for r <> 0 the
    last point is not the first; every point has z = 0 and lies at
    distance |r| from the origin, which is r when r >= 0. *)
Theorem orbit_trace_closed_circle (altitude_km : R) (points : nat)
    (Hpoints : (2 <= points)%nat) :
  let r := R_EARTH + altitude_km * 1000 in
  let theta := fun i : nat => INR i * (2 * np_pi / (INR points - 1)) in
  let '(x, y, z) := generate_orbit_3d altitude_km points in
  let trace := orbit_points (x, y, z) in
  List.length x = points /\ List.length y = points /\ List.length z = points
  /\ List.length trace = points
  /\ theta 0%nat = 0 /\ theta (points - 1)%nat = 2 * np_pi
  /\ (forall i j, (i < j)%nat -> theta j - theta i
                                 = INR (j - i) * (2 * np_pi / (INR points - 1)))
  /\ (forall i d, (i < points)%nat ->
        nth i trace d = (r * cos (theta i), r * sin (theta i), 0))
  /\ (forall d, nth 0 trace d = (r, 0, 0))
  /\ (forall d, nth (points - 1) trace d
                = (r * cos (2 * np_pi), r * sin (2 * np_pi), 0))
  /\ - (26 / 100000000000000000) < sin (2 * np_pi) < 0
  /\ (r <> 0 -> forall d, nth (points - 1) trace d <> nth 0 trace d)
  /\ (forall px py pz, In (px, py, pz) trace ->
        pz = 0
        /\ sqrt (px * px + py * py + pz * pz) = Rabs r
        /\ (0 <= r -> sqrt (px * px + py * py + pz * pz) = r)).
Proof.
  cbv zeta.
  pose proof (orbit_points_map altitude_km points) as Hmap.
  pose proof (fun i d => orbit_point_nth altitude_km points i d Hpoints) as Hnth.
  pose proof (fun d => orbit_point_first altitude_km points d Hpoints) as Hfst.
  pose proof (fun d => orbit_point_last altitude_km points d Hpoints) as Hlst.
  unfold generate_orbit_3d in *. cbv zeta in *.
  set (r := R_EARTH + altitude_km * 1000) in *.
  assert (Hn : INR points - 1 <> 0).
  { replace (INR points - 1) with (INR (points - 1)).
    - apply not_0_INR. lia.
    - rewrite minus_INR by lia. reflexivity. }
  rewrite !length_map, linspace_length.
  do 3 (split; [reflexivity|]).
  split; [rewrite Hmap, length_map, linspace_length; reflexivity|].
  split; [cbn; ring|].
  split; [rewrite minus_INR by lia; cbn [INR]; field; exact Hn|].
  split; [intros i j Hij; rewrite minus_INR by lia; ring|].
  split; [intros i d Hi; apply Hnth; exact Hi|].
  split; [exact Hfst|]. split; [exact Hlst|].
  pose proof sin_2_np_pi as Hsin.
  split; [exact Hsin|].
  split.
  { intros Hr d Heq. rewrite Hfst, Hlst in Heq.
    injection Heq as _ Hy.
    apply Rmult_integral in Hy as [Hy | Hy]; [now apply Hr | lra]. }
  intros px py pz Hin. rewrite Hmap in Hin.
  apply in_map_iff in Hin as (t & Heq & _).
  injection Heq as <- <- <-. rewrite on_circle.
  split; [reflexivity|]. split.
  - fold (Rsqr r). apply sqrt_Rsqr_abs.
  - intros Hr. apply sqrt_square. exact Hr.
Qed.

Lemma orbit_trace_closed_circle_witness :
  List.length (orbit_points (generate_orbit_3d 700 400)) = 400%nat
  /\ nth 0 (orbit_points (generate_orbit_3d 700 400)) (0, 0, 0)
     = (R_EARTH + 700 * 1000, 0, 0)
  /\ nth 399 (orbit_points (generate_orbit_3d 700 400)) (0, 0, 0)
     <> nth 0 (orbit_points (generate_orbit_3d 700 400)) (0, 0, 0).
Proof.
  pose proof (orbit_trace_closed_circle 700 400
                (proj1 (Nat.leb_le 2 400) eq_refl)) as H.
  unfold generate_orbit_3d in H. cbv zeta in H.
  destruct H as (_ & _ & _ & Hlen & _ & _ & _ & _ & Hfirst & _ & _ & Hopen & _).
  split; [exact Hlen|]. split; [exact (Hfirst (0, 0, 0))|].
  apply (Hopen ltac:(unfold R_EARTH; lra) (0, 0, 0)).
Defined.

(** C5 as stated fails: the loop is not closed.  At the default altitude
    of 700 km with the default 400 points the first point is
    (7071000, 0, 0) and the last point has a negative y coordinate,
    7071000 sin (2 np.pi), so the two differ. *)
Lemma orbit_trace_not_closed :
  let trace := orbit_points (generate_orbit_3d 700 400) in
  List.length trace = 400%nat
  /\ nth 0 trace (0, 0, 0) = (7071000, 0, 0)
  /\ nth 399 trace (0, 0, 0)
     = (7071000 * cos (2 * np_pi), 7071000 * sin (2 * np_pi), 0)
  /\ 7071000 * sin (2 * np_pi) < 0
  /\ nth 399 trace (0, 0, 0) <> nth 0 trace (0, 0, 0).
Proof.
  cbv zeta.
  assert (Hr : R_EARTH + 700 * 1000 = 7071000) by (unfold R_EARTH; lra).
  assert (Hfst : nth 0 (orbit_points (generate_orbit_3d 700 400)) (0, 0, 0)
                 = (7071000, 0, 0)).
  { rewrite orbit_point_first by lia. now rewrite Hr. }
  assert (Hlst : nth 399 (orbit_points (generate_orbit_3d 700 400)) (0, 0, 0)
                 = (7071000 * cos (2 * np_pi), 7071000 * sin (2 * np_pi), 0)).
  { change 399%nat with (400 - 1)%nat. rewrite orbit_point_last by lia.
    now rewrite Hr. }
  pose proof sin_2_np_pi as Hsin.
  assert (Hy : 7071000 * sin (2 * np_pi) < 0) by lra.
  split; [rewrite orbit_points_map, length_map; apply linspace_length|].
  split; [exact Hfst|]. split; [exact Hlst|]. split; [exact Hy|].
  rewrite Hfst, Hlst. intros Heq. injection Heq as _ Heq. lra.
Qed.

Local Close Scope R_scope.

(* ================================================================== *)
(** * Further properties of the code *)

(* ------------------------------------------------------------------ *)
(** ** Period and velocity together *)

Local Open Scope R_scope.

(** X1. For a positive semi-major axis, velocity times period is the
    circumference of the orbit: [orbital_velocity a * kepler_period a]
    is [2 pi a]. *)
Theorem velocity_period_circumference (a : R) (Ha : 0 < a) :
  orbital_velocity a * kepler_period a = 2 * PI * a.
Proof.
  unfold orbital_velocity, kepler_period.
  pose proof MU_EARTH_pos as Hmu.
  assert (H1 : 0 <= MU_EARTH / a) by (apply Rlt_le, Rdiv_lt_0_compat; lra).
  assert (H2 : 0 <= a ^ 3 / MU_EARTH)
    by (apply Rlt_le, Rdiv_lt_0_compat; [apply pow_lt|]; lra).
  replace (sqrt (MU_EARTH / a) * (2 * PI * sqrt (a ^ 3 / MU_EARTH)))
    with (2 * PI * (sqrt (MU_EARTH / a) * sqrt (a ^ 3 / MU_EARTH))) by ring.
  rewrite <- sqrt_mult by assumption.
  replace (MU_EARTH / a * (a ^ 3 / MU_EARTH)) with (a * a) by (field; lra).
  rewrite sqrt_square by lra. reflexivity.
Qed.

Lemma velocity_period_circumference_witness :
  orbital_velocity 7071000 * kepler_period 7071000 = 2 * PI * 7071000.
Proof. apply velocity_period_circumference. lra. Defined.

Local Close Scope R_scope.

(* ------------------------------------------------------------------ *)
(** ** Segments and thresholds *)

Lemma filter_comm {A} (f g : A -> bool) l :
  filter f (filter g l) = filter g (filter f l).
Proof.
  induction l as [|a l IH]; cbn; [reflexivity|].
  destruct (f a) eqn:Hf, (g a) eqn:Hg; cbn; rewrite ?Hf, ?Hg, IH; reflexivity.
Qed.

Lemma filter_idem {A} (f : A -> bool) l : filter f (filter f l) = filter f l.
Proof.
  induction l as [|a l IH]; cbn; [reflexivity|].
  destruct (f a) eqn:Hf; cbn; rewrite ?Hf, IH; reflexivity.
Qed.

Lemma df_seg_filter segment tbl :
  df_seg segment tbl
  = filter (fun r => match segment_mask segment with
                     | Some names => isin (Threat r) names
                     | None => true
                     end) tbl.
Proof.
  unfold df_seg. destruct (segment_mask segment); [reflexivity|].
  induction tbl as [|r tbl IH]; cbn; [reflexivity | now rewrite <- IH].
Qed.

Lemma segment_mask_cases segment :
  (segment = "Space Segment" \/ segment = "Ground Segment" \/ segment = "Link Segment")
  \/ segment_mask segment = None.
Proof.
  unfold segment_mask.
  destruct (String.eqb_spec segment "Space Segment"); [tauto|].
  destruct (String.eqb_spec segment "Ground Segment"); [tauto|].
  destruct (String.eqb_spec segment "Link Segment"); tauto.
Qed.

(** X2. For every table, no record passes two of the Space, Ground and
    Link filters; a "Supply Chain Malware" record passes none of the three
    and is kept only by the unfiltered view; and any segment name other
    than the three, not only "All", leaves the table whole. *)
Theorem segments_disjoint (tbl : list ThreatRecord) :
  (forall r, ~ (In r (df_seg "Space Segment" tbl) /\ In r (df_seg "Ground Segment" tbl))
             /\ ~ (In r (df_seg "Space Segment" tbl) /\ In r (df_seg "Link Segment" tbl))
             /\ ~ (In r (df_seg "Ground Segment" tbl) /\ In r (df_seg "Link Segment" tbl)))
  /\ (forall r, In r tbl -> Threat r = "Supply Chain Malware" ->
                ~ In r (df_seg "Space Segment" tbl)
                /\ ~ In r (df_seg "Ground Segment" tbl)
                /\ ~ In r (df_seg "Link Segment" tbl)
                /\ In r (df_seg "All" tbl))
  /\ (forall segment,
         segment <> "Space Segment" -> segment <> "Ground Segment" ->
         segment <> "Link Segment" -> df_seg segment tbl = tbl).
Proof.
  assert (Hin : forall seg names r, segment_mask seg = Some names ->
                  In r (df_seg seg tbl) -> In (Threat r) names).
  { intros seg names r Hm. rewrite df_seg_filter, Hm, filter_In, isin_In. tauto. }
  split; [|split].
  - intros r. repeat split; intros [H1 H2];
      (eapply Hin in H1; [|reflexivity]); (eapply Hin in H2; [|reflexivity]);
      cbn in H1, H2;
      repeat (destruct H1 as [H1|H1]; [rewrite <- H1 in H2;
        repeat (destruct H2 as [H2|H2]; [discriminate H2|]); exact H2|]);
      exact H1.
  - intros r Hr Ht. repeat split; try exact Hr;
      intros H; (eapply Hin in H; [|reflexivity]); rewrite Ht in H; cbn in H;
      repeat (destruct H as [H|H]; [discriminate H|]); exact H.
  - intros segment H1 H2 H3. unfold df_seg.
    destruct (segment_mask_cases segment) as [[H|[H|H]]| ->]; congruence.
Qed.

Lemma high_risk_twice t1 t2 tbl :
  high_risk t2 (high_risk t1 tbl) = high_risk (Z.max t1 t2) tbl.
Proof.
  unfold high_risk.
  induction tbl as [|r tbl IH]; cbn; [reflexivity|].
  destruct (t1 <=? RiskScore r) eqn:H1; cbn;
    destruct (t2 <=? RiskScore r) eqn:H2;
    destruct (Z.max t1 t2 <=? RiskScore r) eqn:H3;
    rewrite ?IH; try reflexivity;
    rewrite ?Z.leb_le, ?Z.leb_gt in *; lia.
Qed.

Lemma length_filter_le {A} (f : A -> bool) l :
  (List.length (filter f l) <= List.length l)%nat.
Proof.
  induction l as [|a l IH]; cbn; [lia|]. destruct (f a); cbn; lia.
Qed.

(** X3. The segment filter and the risk threshold commute, filtering
    twice is filtering once, and two thresholds in a row act as the larger
    one. *)
Theorem segment_threshold_compose (segment : string) (t1 t2 : Z)
    (tbl : list ThreatRecord) :
  high_risk t1 (df_seg segment tbl) = df_seg segment (high_risk t1 tbl)
  /\ df_seg segment (df_seg segment tbl) = df_seg segment tbl
  /\ high_risk t2 (high_risk t1 tbl) = high_risk (Z.max t1 t2) tbl.
Proof.
  split; [|split; [|apply high_risk_twice]].
  - rewrite !df_seg_filter. unfold high_risk. apply filter_comm.
  - rewrite !df_seg_filter. apply filter_idem.
Qed.

Lemma filter_none {A} (f : A -> bool) l :
  Forall (fun a => f a = false) l -> filter f l = [].
Proof.
  induction 1 as [|a l Ha _ IH]; cbn; [reflexivity|]. now rewrite Ha, IH.
Qed.

Lemma filter_ext_Forall {A} (f g : A -> bool) l :
  Forall (fun a => f a = g a) l -> filter f l = filter g l.
Proof.
  induction 1 as [|a l Ha _ IH]; cbn; [reflexivity|]. now rewrite Ha, IH.
Qed.

Lemma well_formed_scores r :
  well_formed r ->
  In (RiskScore r) [1; 2; 3; 4; 6; 8; 9; 12; 16].
Proof.
  intros (Hl & Hi & ->).
  assert (Hl' : Likelihood r = 1 \/ Likelihood r = 2 \/ Likelihood r = 3
                \/ Likelihood r = 4) by lia.
  assert (Hi' : Impact r = 1 \/ Impact r = 2 \/ Impact r = 3 \/ Impact r = 4) by lia.
  destruct Hl' as [ -> | [ -> | [ -> | -> ] ] ];
    destruct Hi' as [ -> | [ -> | [ -> | -> ] ] ]; cbn; tauto.
Qed.

(** X4. On a table of well-formed records a threshold of 1 or less keeps
    every record and a threshold above 16 keeps none (an empty table of
    findings, not an error); raising the threshold never adds a
    finding. *)
Theorem risk_threshold_edges (df : list ThreatRecord) (Hwf : Forall well_formed df) :
  (forall thr, thr <= 1 -> high_risk thr df = df)
  /\ (forall thr, 16 < thr -> high_risk thr df = [])
  /\ (forall t1 t2, t1 <= t2 ->
        incl (high_risk t2 df) (high_risk t1 df)
        /\ (List.length (high_risk t2 df) <= List.length (high_risk t1 df))%nat).
Proof.
  split; [|split].
  - intros thr Hthr. apply filter_all.
    eapply Forall_impl; [|exact Hwf]. intros r (Hl & Hi & Hr).
    apply Z.leb_le. nia.
  - intros thr Hthr. apply filter_none.
    eapply Forall_impl; [|exact Hwf]. intros r (Hl & Hi & Hr).
    apply Z.leb_gt. nia.
  - intros t1 t2 Ht.
    assert (Heq : high_risk t2 df = high_risk t2 (high_risk t1 df))
      by (rewrite high_risk_twice; f_equal; lia).
    split.
    + rewrite Heq. unfold high_risk at 1. apply incl_filter.
    + rewrite Heq. unfold high_risk at 1. apply length_filter_le.
Qed.

Lemma risk_threshold_edges_witness :
  high_risk 1 [ mkThreat "Uplink Jamming" "Integrity" 3 4 12;
                mkThreat "Sat Bus Exploit" "Availability" 1 1 1 ]
  = [ mkThreat "Uplink Jamming" "Integrity" 3 4 12;
      mkThreat "Sat Bus Exploit" "Availability" 1 1 1 ]
  /\ high_risk 17 [ mkThreat "Uplink Jamming" "Integrity" 3 4 12;
                    mkThreat "Sat Bus Exploit" "Availability" 1 1 1 ] = [].
Proof.
  assert (Hwf : Forall well_formed
                  [ mkThreat "Uplink Jamming" "Integrity" 3 4 12;
                    mkThreat "Sat Bus Exploit" "Availability" 1 1 1 ])
    by (repeat constructor; cbn; lia).
  destruct (risk_threshold_edges _ Hwf) as (Hall & Hnone & _).
  split; [apply Hall | apply Hnone]; lia.
Defined.

(** X5. A well-formed record never has RiskScore 5, 7, 10, 11, 13, 14 or
    15, so on a table of well-formed records the thresholds 5 and 6 give
    the same findings, as do 7 and 8, as do 10, 11 and 12, and as do 13,
    14, 15 and 16. *)
Theorem risk_threshold_plateaus (df : list ThreatRecord) (Hwf : Forall well_formed df) :
  Forall (fun r => In (RiskScore r) [1; 2; 3; 4; 6; 8; 9; 12; 16]) df
  /\ high_risk 5 df = high_risk 6 df
  /\ high_risk 7 df = high_risk 8 df
  /\ high_risk 10 df = high_risk 12 df /\ high_risk 11 df = high_risk 12 df
  /\ high_risk 13 df = high_risk 16 df /\ high_risk 14 df = high_risk 16 df
  /\ high_risk 15 df = high_risk 16 df.
Proof.
  assert (Hs : Forall (fun r => In (RiskScore r) [1; 2; 3; 4; 6; 8; 9; 12; 16]) df)
    by (eapply Forall_impl; [|exact Hwf]; apply well_formed_scores).
  split; [exact Hs|].
  repeat split; unfold high_risk; apply filter_ext_Forall;
    (eapply Forall_impl; [|exact Hs]); intros r Hr; cbn in Hr;
    repeat (destruct Hr as [Hr|Hr]; [rewrite <- Hr; reflexivity|]);
    contradiction.
Qed.

Lemma risk_threshold_plateaus_witness :
  high_risk 13 [ mkThreat "Uplink Jamming" "Integrity" 3 4 12;
                 mkThreat "Sat Bus Exploit" "Availability" 4 4 16 ]
  = high_risk 16 [ mkThreat "Uplink Jamming" "Integrity" 3 4 12;
                   mkThreat "Sat Bus Exploit" "Availability" 4 4 16 ].
Proof.
  assert (Hwf : Forall well_formed
                  [ mkThreat "Uplink Jamming" "Integrity" 3 4 12;
                    mkThreat "Sat Bus Exploit" "Availability" 4 4 16 ])
    by (repeat constructor; cbn; lia).
  exact (proj1 (proj2 (proj2 (proj2 (proj2 (proj2
           (risk_threshold_plateaus _ Hwf))))))).
Defined.

(* ------------------------------------------------------------------ *)
(** ** The heatmap aggregate *)

Lemma key_compare_spec k k' :
  match key_compare k k' with
  | Lt => key_lt k k'
  | Eq => k = k'
  | Gt => key_lt k' k
  end.
Proof.
  unfold key_compare, key_lt. destruct k as [a b], k' as [a' b']. cbn.
  destruct (Z.compare_spec a a'); [subst|lia|lia].
  destruct (Z.compare_spec b b'); [subst; reflexivity|lia|lia].
Qed.

Lemma key_compare_refl k : key_compare k k = Eq.
Proof. unfold key_compare. now rewrite !Z.compare_refl. Qed.

Lemma key_lt_irrefl k : ~ key_lt k k.
Proof. unfold key_lt. lia. Qed.

Lemma key_lt_trans k1 k2 k3 : key_lt k1 k2 -> key_lt k2 k3 -> key_lt k1 k3.
Proof. unfold key_lt. lia. Qed.

Lemma key_compare_lt k k' : key_lt k k' -> key_compare k k' = Lt.
Proof.
  intros H. pose proof (key_compare_spec k k') as Hs.
  destruct (key_compare k k'); [subst; now apply key_lt_irrefl in H | reflexivity|].
  exfalso. apply (key_lt_irrefl k). eapply key_lt_trans; eassumption.
Qed.

Lemma key_compare_gt k k' : key_lt k' k -> key_compare k k' = Gt.
Proof.
  intros H. pose proof (key_compare_spec k k') as Hs.
  destruct (key_compare k k'); [subst; now apply key_lt_irrefl in H | | reflexivity].
  exfalso. apply (key_lt_irrefl k). eapply key_lt_trans; eassumption.
Qed.

Lemma count_key_keys k groups g :
  In g (count_key k groups) -> heat_key g = k \/ In (heat_key g) (map heat_key groups).
Proof.
  induction groups as [|g0 groups IH]; cbn.
  - intros [<-|[]]. left. now destruct k.
  - pose proof (key_compare_spec k (heat_key g0)) as Hs.
    destruct (key_compare k (heat_key g0)); cbn.
    + intros [<-|Hin]; [right; left; reflexivity|].
      right; right. now apply in_map.
    + intros [<-|[<-|Hin]]; [left; now destruct k | right; now left|].
      right; right. now apply in_map.
    + intros [<-|Hin]; [right; now left|].
      destruct (IH Hin); [now left | right; now right].
Qed.

Lemma count_key_sorted k groups :
  keys_sorted groups -> keys_sorted (count_key k groups).
Proof.
  unfold keys_sorted.
  induction groups as [|g groups IH]; cbn; intros Hs.
  - destruct k. repeat constructor.
  - apply StronglySorted_inv in Hs as [Hs Hg].
    pose proof (key_compare_spec k (heat_key g)) as Hc.
    destruct (key_compare k (heat_key g)); cbn.
    + constructor; assumption.
    + destruct k as [a b]. cbn [fst snd].
      constructor; [constructor; assumption|].
      constructor; [exact Hc|].
      eapply Forall_impl; [|exact Hg]. intros k'. now apply key_lt_trans.
    + constructor; [now apply IH|].
      apply Forall_forall. intros k' Hk'.
      apply in_map_iff in Hk' as (g' & <- & Hin).
      destruct (count_key_keys _ _ _ Hin) as [->|Hin']; [exact Hc|].
      rewrite Forall_forall in Hg. now apply Hg.
Qed.

Lemma heatmap_data_sorted df : keys_sorted (heatmap_data df).
Proof.
  induction df as [|r df IH]; cbn; [constructor|]. now apply count_key_sorted.
Qed.

Lemma heat_count_below groups k :
  Forall (key_lt k) (map heat_key groups) -> heat_count groups k = 0.
Proof.
  induction groups as [|g groups IH]; cbn; [reflexivity|].
  intros H. apply Forall_cons_iff in H as [Hk H].
  rewrite (key_compare_lt _ _ Hk). now apply IH.
Qed.

Lemma heat_key_mk a b c : heat_key (mkHeat a b c) = (a, b).
Proof. reflexivity. Qed.

Lemma heat_count_count_key k groups k' :
  keys_sorted groups ->
  heat_count (count_key k groups) k'
  = heat_count groups k' + match key_compare k' k with Eq => 1 | _ => 0 end.
Proof.
  unfold keys_sorted.
  induction groups as [|g groups IH]; cbn [count_key map]; intros Hs.
  - destruct k as [a b]. cbn [heat_count fst snd]. rewrite heat_key_mk.
    now destruct (key_compare k' (a, b)).
  - apply StronglySorted_inv in Hs as [Hs Hg].
    pose proof (key_compare_spec k (heat_key g)) as Hc.
    destruct (key_compare k (heat_key g)) eqn:Hkg; cbn [heat_count].
    + subst k. rewrite heat_key_mk. fold (heat_key g). cbn [Count].
      destruct (key_compare k' (heat_key g)); lia.
    + destruct k as [a b]. cbn [fst snd]. rewrite heat_key_mk.
      pose proof (key_compare_spec k' (a, b)) as Hk'.
      destruct (key_compare k' (a, b)) eqn:Hk'k;
        [|now rewrite Z.add_0_r|now rewrite Z.add_0_r].
      subst k'. rewrite Hkg. cbn [Count].
      rewrite heat_count_below; [lia|].
      eapply Forall_impl; [|exact Hg]. intros k''. now apply key_lt_trans.
    + pose proof (key_compare_spec k' (heat_key g)) as Hk'.
      destruct (key_compare k' (heat_key g)) eqn:Hk'g.
      * subst k'. rewrite (key_compare_lt _ _ Hc). lia.
      * now apply IH.
      * now apply IH.
Qed.

Lemma heat_count_records df k :
  heat_count (heatmap_data df) k = Z.of_nat (List.length (records_with k df)).
Proof.
  induction df as [|r df IH]; [reflexivity|].
  cbn [heatmap_data fold_right].
  fold (heatmap_data df).
  rewrite heat_count_count_key by apply heatmap_data_sorted.
  rewrite IH. unfold records_with. cbn [filter].
  pose proof (key_compare_spec k (Likelihood r, Impact r)) as Hc.
  destruct (Z.eqb_spec (Likelihood r) (fst k)) as [Hl|Hl];
    destruct (Z.eqb_spec (Impact r) (snd k)) as [Hi|Hi]; cbn [andb];
    destruct (key_compare k (Likelihood r, Impact r)); cbn [List.length];
    try lia;
    try (exfalso; subst k; cbn in *; congruence);
    try (exfalso; unfold key_lt in Hc; cbn in Hc; lia).
Qed.

Lemma heat_count_member groups g :
  keys_sorted groups -> In g groups -> heat_count groups (heat_key g) = Count g.
Proof.
  unfold keys_sorted.
  induction groups as [|g0 groups IH]; cbn; [contradiction|].
  intros Hs Hin. apply StronglySorted_inv in Hs as [Hs Hg].
  destruct Hin as [->|Hin]; [now rewrite key_compare_refl|].
  rewrite key_compare_gt; [now apply IH|].
  rewrite Forall_forall in Hg. apply Hg. now apply in_map.
Qed.

Lemma total_count_count_key k groups :
  total_count (count_key k groups) = total_count groups + 1.
Proof.
  unfold total_count.
  induction groups as [|g groups IH]; cbn [count_key fold_right Count]; [lia|].
  destruct (key_compare k (heat_key g)); cbn [fold_right Count]; rewrite ?IH; lia.
Qed.

Lemma heatmap_data_origin df g :
  In g (heatmap_data df) ->
  exists r, In r df /\ (Likelihood r, Impact r) = heat_key g.
Proof.
  revert g. induction df as [|r df IH]; cbn [heatmap_data fold_right]; [contradiction|].
  fold (heatmap_data df). intros g Hin.
  destruct (count_key_keys _ _ _ Hin) as [Hk|Hk].
  - exists r. split; [now left | now symmetry].
  - apply in_map_iff in Hk as (g' & Hkey & Hin').
    destruct (IH g' Hin') as (r' & Hr' & Heq).
    exists r'. split; [now right | congruence].
Qed.

Lemma heat_count_absent groups k :
  ~ In k (map heat_key groups) -> heat_count groups k = 0.
Proof.
  induction groups as [|g groups IH]; cbn; [reflexivity|].
  intros Hnot. pose proof (key_compare_spec k (heat_key g)) as Hc.
  destruct (key_compare k (heat_key g)); [exfalso; apply Hnot; now left| |];
    apply IH; tauto.
Qed.

Lemma records_with_In k df r :
  In r (records_with k df) <-> In r df /\ (Likelihood r, Impact r) = k.
Proof.
  unfold records_with. rewrite filter_In, andb_true_iff, !Z.eqb_eq.
  destruct k as [a b]. cbn. split; [intros (H & <- & <-); auto|].
  intros (H & Heq). injection Heq as <- <-. auto.
Qed.

Lemma key_eq_dec (k k' : Z * Z) : {k = k'} + {k <> k'}.
Proof. decide equality; apply Z.eq_dec. Qed.

Lemma sorted_keys_NoDup (l : list (Z * Z)) : StronglySorted key_lt l -> NoDup l.
Proof.
  induction 1 as [|k l Hs IH Hk]; constructor; [|exact IH].
  intros Hin. rewrite Forall_forall in Hk.
  now apply (key_lt_irrefl k), Hk.
Qed.

(** X6. The heatmap aggregate of any table has one row per
    (Likelihood, Impact) pair that occurs in the table and none for a pair
    that does not; the rows are in ascending order of Likelihood, then
    Impact, without repetition; each Count is the number of records with
    that pair, so it is at least 1, and the counts add up to the number of
    records.  The empty table gives the empty aggregate, and a table of
    well-formed records at most 16 rows. *)
Theorem heatmap_counts (df : list ThreatRecord) :
  keys_sorted (heatmap_data df)
  /\ NoDup (map heat_key (heatmap_data df))
  /\ (forall k, In k (map heat_key (heatmap_data df))
                <-> exists r, In r df /\ (Likelihood r, Impact r) = k)
  /\ (forall g, In g (heatmap_data df) ->
        1 <= Count g
        /\ Count g = Z.of_nat (List.length (records_with (heat_key g) df)))
  /\ (forall k, heat_count (heatmap_data df) k
                = Z.of_nat (List.length (records_with k df)))
  /\ total_count (heatmap_data df) = Z.of_nat (List.length df)
  /\ heatmap_data [] = []
  /\ (Forall well_formed df -> (List.length (heatmap_data df) <= 16)%nat).
Proof.
  pose proof (heatmap_data_sorted df) as Hs.
  pose proof (sorted_keys_NoDup _ Hs) as Hnd.
  assert (Hkeys : forall k, In k (map heat_key (heatmap_data df))
                            <-> exists r, In r df /\ (Likelihood r, Impact r) = k).
  { intros k. split.
    - intros Hin. apply in_map_iff in Hin as (g & <- & Hin).
      now apply heatmap_data_origin.
    - intros (r & Hr & Hk).
      destruct (in_dec key_eq_dec k (map heat_key (heatmap_data df)))
        as [Hin|Hnot];
        [exact Hin|].
      exfalso. apply heat_count_absent in Hnot.
      rewrite heat_count_records in Hnot.
      assert (Hrw : In r (records_with k df)) by (apply records_with_In; auto).
      destruct (records_with k df); [contradiction | cbn in Hnot; lia]. }
  assert (Hcount : forall g, In g (heatmap_data df) ->
             Count g = Z.of_nat (List.length (records_with (heat_key g) df))).
  { intros g Hin. rewrite <- heat_count_records. symmetry.
    now apply heat_count_member. }
  split; [exact Hs|]. split; [exact Hnd|]. split; [exact Hkeys|].
  split.
  { intros g Hin. split; [|now apply Hcount].
    rewrite (Hcount g Hin).
    destruct (heatmap_data_origin df g Hin) as (r & Hr & Hk).
    assert (Hrw : In r (records_with (heat_key g) df))
      by (apply records_with_In; auto).
    destruct (records_with (heat_key g) df); [contradiction | cbn; lia]. }
  split; [apply heat_count_records|].
  split.
  { clear. induction df as [|r df IH]; [reflexivity|].
    cbn [heatmap_data fold_right]. fold (heatmap_data df).
    rewrite total_count_count_key, IH. cbn [List.length]. lia. }
  split; [reflexivity|].
  intros Hwf. rewrite <- (length_map heat_key).
  change 16%nat with (List.length (list_prod [1; 2; 3; 4] [1; 2; 3; 4])).
  apply NoDup_incl_length; [exact Hnd|].
  intros k Hk. apply Hkeys in Hk as (r & Hr & <-).
  rewrite Forall_forall in Hwf. destruct (Hwf r Hr) as (Hl & Hi & _).
  apply in_prod; cbn; lia.
Qed.

(** The aggregate of a small table, computed. *)
Example heatmap_data_run :
  heatmap_data [ mkThreat "Uplink Jamming" "Integrity" 3 4 12;
                 mkThreat "Uplink Jamming" "Availability" 1 2 2;
                 mkThreat "Sat Bus Exploit" "Integrity" 3 4 12 ]
  = [ mkHeat 1 2 1; mkHeat 3 4 2 ].
Proof. reflexivity. Qed.

(* ------------------------------------------------------------------ *)
(** ** The pivot of an arbitrary coverage table *)

Lemma string_lt_trans a b c : string_lt a b -> string_lt b c -> string_lt a c.
Proof.
  unfold string_lt. intros H1 H2.
  apply String_as_OT.cmp_lt in H1, H2. apply String_as_OT.cmp_lt.
  eapply String_as_OT.lt_trans; eassumption.
Qed.

Lemma string_lt_irrefl a : ~ string_lt a a.
Proof.
  unfold string_lt. intros H.
  assert (String.compare a a = Eq) by now apply String_as_OT.cmp_eq.
  congruence.
Qed.

Lemma string_compare_gt a b : String.compare a b = Gt -> string_lt b a.
Proof.
  unfold string_lt. intros H. rewrite String.compare_antisym, H. reflexivity.
Qed.

Lemma insert_unique_sorted x l :
  StronglySorted string_lt l -> StronglySorted string_lt (insert_unique x l).
Proof.
  induction l as [|y l IH]; cbn; intros Hs.
  - repeat constructor.
  - apply StronglySorted_inv in Hs as [Hs Hy].
    destruct (String.compare x y) eqn:Hc.
    + constructor; assumption.
    + constructor; [constructor; assumption|].
      constructor; [exact Hc|].
      eapply Forall_impl; [|exact Hy]. intros z. now apply string_lt_trans.
    + constructor; [now apply IH|].
      apply Forall_forall. intros z Hz.
      apply insert_unique_In in Hz as [->|Hz]; [now apply string_compare_gt|].
      rewrite Forall_forall in Hy. now apply Hy.
Qed.

Lemma sorted_unique_sorted l : StronglySorted string_lt (sorted_unique l).
Proof.
  induction l as [|x l IH]; cbn; [constructor|]. now apply insert_unique_sorted.
Qed.

Lemma sorted_strings_NoDup l : StronglySorted string_lt l -> NoDup l.
Proof.
  induction 1 as [|a l Hs IH Ha]; constructor; [|exact IH].
  intros Hin. rewrite Forall_forall in Ha.
  now apply (string_lt_irrefl a), Ha.
Qed.

Lemma lookup_absent {A} k keys (vals : list A) :
  ~ In k keys -> lookup k keys vals = None.
Proof.
  revert vals. induction keys as [|k' keys IH]; intros [|v vals] Hnot;
    cbn; try reflexivity.
  destruct (String.eqb_spec k k') as [->|Hne]; [exfalso; apply Hnot; now left|].
  apply IH. intros Hin. apply Hnot. now right.
Qed.

Lemma group_values_filter df tech tac :
  group_values (filter has_score df) tech tac = group_values df tech tac.
Proof.
  induction df as [|r df IH]; [reflexivity|].
  cbn [filter]. unfold has_score at 1.
  destruct (CoverageScore r) eqn:Hr; rewrite !group_values_cons, ?Hr, IH;
    [reflexivity|].
  now destruct (String.eqb (Technique r) tech && String.eqb (Tactic r) tac).
Qed.

Lemma group_values_In df tech tac v :
  In v (group_values df tech tac)
  <-> exists r, In r df /\ Technique r = tech /\ Tactic r = tac
                /\ CoverageScore r = Some v.
Proof.
  induction df as [|r df IH].
  - cbn. split; [contradiction | now intros (r & [] & _)].
  - rewrite group_values_cons, in_app_iff, IH. split.
    + intros [Hv|(r' & Hin & H)]; [|exists r'; cbn; tauto].
      destruct (String.eqb_spec (Technique r) tech) as [Ht|]; [|contradiction].
      destruct (String.eqb_spec (Tactic r) tac) as [Hc|]; [|contradiction].
      cbn in Hv. destruct (CoverageScore r) as [v'|] eqn:Hs; [|contradiction].
      destruct Hv as [->|[]]. exists r. cbn. tauto.
    + intros (r' & [->|Hin] & Ht & Hc & Hs); [left | right; exists r'; tauto].
      rewrite <- Ht, <- Hc, !String.eqb_refl, Hs. now left.
Qed.

Lemma group_values_cell_records df tech tac :
  List.length (group_values df tech tac) = List.length (cell_records df tech tac)
  /\ fold_right Z.add 0 (group_values df tech tac)
     = score_sum (cell_records df tech tac).
Proof.
  unfold cell_records, score_sum.
  induction df as [|r df [IHl IHs]]; [split; reflexivity|].
  rewrite group_values_cons. cbn [filter].
  assert (Hhs : has_score r
                = match CoverageScore r with Some _ => true | None => false end)
    by reflexivity.
  destruct (String.eqb (Technique r) tech && String.eqb (Tactic r) tac);
    destruct (CoverageScore r) as [v|] eqn:Hv; rewrite ?Hhs;
    cbn [andb app List.length fold_right]; rewrite ?Hv; split; congruence.
Qed.

(** X7. For every coverage table, with repeated (Tactic, Technique)
    pairs and unmapped labels allowed: each cell of the pivot is the mean
    of the scores of all records with that Technique and Tactic (the
    cell times the number of those records is the sum of their scores),
    and is unpopulated exactly when there is no such scored record; the row and
    column labels are those of the scored records, in strictly ascending
    order; the matrix is rectangular; and records without a score do not
    change the pivot. *)
Theorem pivot_table_general (df : list CoverageRecord) :
  let pivot := pivot_table df in
  (forall tech tac,
      pivot_cell pivot tech tac = mean (group_values df tech tac))
  /\ (forall tech tac,
        pivot_cell pivot tech tac = None
        <-> ~ exists r v, In r df /\ Technique r = tech /\ Tactic r = tac
                          /\ CoverageScore r = Some v)
  /\ StronglySorted string_lt (index pivot) /\ NoDup (index pivot)
  /\ StronglySorted string_lt (columns pivot) /\ NoDup (columns pivot)
  /\ (forall tech, In tech (index pivot)
                   <-> exists r v, In r df /\ Technique r = tech
                                   /\ CoverageScore r = Some v)
  /\ (forall tac, In tac (columns pivot)
                  <-> exists r v, In r df /\ Tactic r = tac
                                  /\ CoverageScore r = Some v)
  /\ List.length (values pivot) = List.length (index pivot)
  /\ Forall (fun row => List.length row = List.length (columns pivot)) (values pivot)
  /\ pivot_table (filter has_score df) = pivot
  /\ (forall tech tac,
        match pivot_cell pivot tech tac with
        | None => cell_records df tech tac = []
        | Some q =>
            cell_records df tech tac <> []
            /\ Qeq (q * inject_Z (Z.of_nat (List.length (cell_records df tech tac))))
                   (inject_Z (score_sum (cell_records df tech tac)))
        end).
Proof.
  cbv zeta.
  assert (Hscored : forall r, In r (filter has_score df)
                              <-> In r df /\ exists v, CoverageScore r = Some v).
  { intros r. rewrite filter_In. unfold has_score.
    destruct (CoverageScore r) as [v|]; split; intros [H1 H2];
      try discriminate; split; eauto.
    now destruct H2. }
  assert (Hidx : forall tech, In tech (index (pivot_table df))
                   <-> exists r v, In r df /\ Technique r = tech
                                   /\ CoverageScore r = Some v).
  { intros tech. unfold pivot_table. cbn [index].
    rewrite sorted_unique_In, in_map_iff. split.
    - intros (r & Ht & Hr). apply Hscored in Hr as (Hr & v & Hv). eauto.
    - intros (r & v & Hr & Ht & Hv). exists r. split; [exact Ht|].
      apply Hscored. eauto. }
  assert (Hcol : forall tac, In tac (columns (pivot_table df))
                   <-> exists r v, In r df /\ Tactic r = tac
                                   /\ CoverageScore r = Some v).
  { intros tac. unfold pivot_table. cbn [columns].
    rewrite sorted_unique_In, in_map_iff. split.
    - intros (r & Ht & Hr). apply Hscored in Hr as (Hr & v & Hv). eauto.
    - intros (r & v & Hr & Ht & Hv). exists r. split; [exact Ht|].
      apply Hscored. eauto. }
  assert (Hcell : forall tech tac,
             pivot_cell (pivot_table df) tech tac = mean (group_values df tech tac)).
  { intros tech tac.
    destruct (in_dec string_dec tech (index (pivot_table df))) as [Ht|Ht];
      [destruct (in_dec string_dec tac (columns (pivot_table df))) as [Hc|Hc]|].
    - rewrite pivot_cell_mean, group_values_filter; [reflexivity| |].
      + unfold pivot_table in Ht. cbn [index] in Ht.
        exact (proj1 (sorted_unique_In _ _) Ht).
      + unfold pivot_table in Hc. cbn [columns] in Hc.
        exact (proj1 (sorted_unique_In _ _) Hc).
    - assert (Hg : group_values df tech tac = []).
      { destruct (group_values df tech tac) as [|v l] eqn:Hg; [reflexivity|].
        exfalso. apply Hc, Hcol.
        assert (Hv : In v (group_values df tech tac)) by (rewrite Hg; now left).
        apply group_values_In in Hv as (r & Hr & _ & Htac & Hv). eauto. }
      rewrite Hg. unfold pivot_cell.
      destruct (lookup tech _ _); [|reflexivity].
      now rewrite lookup_absent.
    - assert (Hg : group_values df tech tac = []).
      { destruct (group_values df tech tac) as [|v l] eqn:Hg; [reflexivity|].
        exfalso. apply Ht, Hidx.
        assert (Hv : In v (group_values df tech tac)) by (rewrite Hg; now left).
        apply group_values_In in Hv as (r & Hr & Htech & _ & Hv). eauto. }
      rewrite Hg. unfold pivot_cell. now rewrite lookup_absent. }
  split; [exact Hcell|].
  split.
  { intros tech tac. rewrite Hcell. split.
    - intros Hm (r & v & Hr & Ht & Hc & Hv).
      assert (Hin : In v (group_values df tech tac))
        by (apply group_values_In; eauto).
      destruct (group_values df tech tac); [contradiction | discriminate Hm].
    - intros Hnone. destruct (group_values df tech tac) as [|v l] eqn:Hg;
        [reflexivity|].
      exfalso. apply Hnone.
      assert (Hv : In v (group_values df tech tac)) by (rewrite Hg; now left).
      apply group_values_In in Hv as (r & Hr & Ht & Hc & Hv).
      exists r, v. auto. }
  split; [apply sorted_unique_sorted|].
  split; [apply sorted_strings_NoDup, sorted_unique_sorted|].
  split; [apply sorted_unique_sorted|].
  split; [apply sorted_strings_NoDup, sorted_unique_sorted|].
  split; [exact Hidx|]. split; [exact Hcol|].
  split; [unfold pivot_table; cbn [values index]; apply length_map|].
  split.
  { unfold pivot_table. cbn [values columns]. apply Forall_map, Forall_forall.
    intros tech _. apply length_map. }
  split; [unfold pivot_table; now rewrite filter_idem|].
  intros tech tac. rewrite Hcell.
  destruct (group_values_cell_records df tech tac) as (Hlen & Hsum).
  unfold mean.
  destruct (group_values df tech tac) as [|v g] eqn:Hg.
  - cbn in Hlen. now destruct (cell_records df tech tac).
  - split; [intros Hnil; rewrite Hnil in Hlen; discriminate Hlen|].
    rewrite <- Hlen, <- Hsum.
    assert (Hnz : ~ Qeq (inject_Z (Z.of_nat (List.length (v :: g)))) 0).
    { unfold Qeq. cbn. lia. }
    field. exact Hnz.
Qed.

(** Two records for one cell, and a record with an unmapped label. *)
Example pivot_table_duplicates :
  let df := assign_CoverageScore
              [ mkCovRow "Impact" "RF Scanning" "None";
                mkCovRow "Impact" "RF Scanning" "Good";
                mkCovRow "Execution" "RF Scanning" "Unknown" ] in
  index (pivot_table df) = ["RF Scanning"]
  /\ columns (pivot_table df) = ["Impact"]
  /\ (exists q, pivot_cell (pivot_table df) "RF Scanning" "Impact" = Some q
                /\ Qeq q 1)
  /\ pivot_cell (pivot_table df) "RF Scanning" "Execution" = None.
Proof.
  cbv zeta. repeat split. eexists. split; reflexivity.
Qed.

(* ------------------------------------------------------------------ *)
(** ** The 3D scene: edge cases of the trace, the Earth surface *)

Local Open Scope R_scope.

Lemma linspace_head start stop num :
  linspace start stop (S num)
  = start :: tl (linspace start stop (S num)).
Proof.
  unfold linspace. cbv zeta. cbn [seq map tl]. f_equal.
  destruct num as [|num]; cbn [Nat.eqb Nat.ltb Nat.leb andb INR]; ring.
Qed.

(** X8. Edge cases of the orbit trace, for every altitude: with 0 points
    the three coordinate arrays are empty and there is no first point for
    the satellite marker; with 1 point the trace is the single point
    (r, 0, 0), r = R_EARTH + 1000 * altitude_km; for every number of
    points the three arrays have that length, and as soon as there is a
    point the marker sits at (r, 0, 0). *)
Theorem orbit_trace_edge_cases (altitude_km : R) :
  let r := R_EARTH + altitude_km * 1000 in
  generate_orbit_3d altitude_km 0 = ([], [], [])
  /\ satellite_marker (generate_orbit_3d altitude_km 0) = None
  /\ generate_orbit_3d altitude_km 1 = ([r], [0], [0])
  /\ (forall points,
        let '(x, y, z) := generate_orbit_3d altitude_km points in
        List.length x = points /\ List.length y = points /\ List.length z = points)
  /\ (forall points,
        satellite_marker (generate_orbit_3d altitude_km (S points)) = Some (r, 0, 0)).
Proof.
  cbv zeta. split; [reflexivity|]. split; [reflexivity|].
  assert (Hmark : forall points,
             satellite_marker (generate_orbit_3d altitude_km (S points))
             = Some (R_EARTH + altitude_km * 1000, 0, 0)).
  { intros points. unfold generate_orbit_3d. cbv zeta.
    rewrite linspace_head. cbn [map satellite_marker].
    now rewrite cos_0, sin_0, Rmult_1_r, Rmult_0_r. }
  split.
  { unfold generate_orbit_3d. cbv zeta. rewrite linspace_head.
    replace (tl (linspace 0 (2 * PI) 1)) with (@nil R) by reflexivity.
    cbn [map]. now rewrite cos_0, sin_0, Rmult_1_r, Rmult_0_r. }
  split; [|exact Hmark].
  intros points. unfold generate_orbit_3d. cbv zeta.
  now rewrite !length_map, linspace_length.
Qed.

Lemma zip_with_map {A B C D} (f : B -> C -> D) (g : A -> B) (h : A -> C) l :
  zip_with f (map g l) (map h l) = map (fun a => f (g a) (h a)) l.
Proof. unfold zip_with. rewrite combine_map_same, map_map. reflexivity. Qed.

Lemma mgrid_axis_length start stop num : List.length (mgrid_axis start stop num) = num.
Proof. unfold mgrid_axis. now rewrite length_map, length_seq. Qed.

Lemma earth_surface_points :
  surface_points earth_surface
  = flat_map (fun a => map (fun b => (R_EARTH * cos a * sin b,
                                      R_EARTH * sin a * sin b,
                                      R_EARTH * cos b))
                           (mgrid_axis 0 PI 15))
             (mgrid_axis 0 (2 * PI) 30).
Proof.
  unfold earth_surface, np_mgrid, surface_points. cbv zeta.
  rewrite !zip_with_map, map_map, !combine_map_same, map_map, flat_map_concat_map.
  reflexivity.
Qed.

Lemma on_sphere r a b :
  (r * cos a * sin b) * (r * cos a * sin b)
  + (r * sin a * sin b) * (r * sin a * sin b)
  + (r * cos b) * (r * cos b) = r * r.
Proof.
  pose proof (sin2_cos2 a) as Ha. pose proof (sin2_cos2 b) as Hb.
  unfold Rsqr in Ha, Hb.
  replace (r * cos a * sin b * (r * cos a * sin b)
           + r * sin a * sin b * (r * sin a * sin b) + r * cos b * (r * cos b))
    with (r * r * ((sin a * sin a + cos a * cos a) * (sin b * sin b)
                   + cos b * cos b)) by ring.
  rewrite Ha, Rmult_1_l, Hb. ring.
Qed.

(** X9. The Earth surface of the 3D figure is a 30 by 15 mesh whose 450
    points all lie on the sphere of radius R_EARTH around the origin,
    and every point of the orbit trace for a positive altitude lies
    outside that sphere, at distance R_EARTH + 1000 * altitude_km. *)
Theorem earth_surface_on_sphere :
  (let '(xe, ye, ze) := earth_surface in
   List.length xe = 30%nat /\ List.length ye = 30%nat /\ List.length ze = 30%nat
   /\ Forall (fun row => List.length row = 15%nat) xe
   /\ Forall (fun row => List.length row = 15%nat) ye
   /\ Forall (fun row => List.length row = 15%nat) ze)
  /\ List.length (surface_points earth_surface) = 450%nat
  /\ (forall px py pz, In (px, py, pz) (surface_points earth_surface) ->
        sqrt (px * px + py * py + pz * pz) = R_EARTH)
  /\ (forall altitude_km points px py pz, 0 < altitude_km ->
        In (px, py, pz) (orbit_points (generate_orbit_3d altitude_km points)) ->
        sqrt (px * px + py * py + pz * pz) = R_EARTH + altitude_km * 1000
        /\ R_EARTH < sqrt (px * px + py * py + pz * pz)).
Proof.
  pose proof R_EARTH_pos as Hr.
  split; [|split; [|split]].
  - unfold earth_surface, np_mgrid. cbv zeta. unfold zip_with.
    rewrite !length_map, !length_combine, !length_map, !mgrid_axis_length.
    repeat split; try reflexivity.
    + apply Forall_map, Forall_forall. intros [ra rb] Hin.
      apply in_combine_l in Hin as Hin1. apply in_combine_r in Hin as Hin2.
      apply in_map_iff in Hin1 as (a & <- & _). apply in_map_iff in Hin2 as (b & <- & _).
      cbn [fst snd]. now rewrite length_map, length_combine, length_map, mgrid_axis_length.
    + apply Forall_map, Forall_forall. intros [ra rb] Hin.
      apply in_combine_l in Hin as Hin1. apply in_combine_r in Hin as Hin2.
      apply in_map_iff in Hin1 as (a & <- & _). apply in_map_iff in Hin2 as (b & <- & _).
      cbn [fst snd]. now rewrite length_map, length_combine, length_map, mgrid_axis_length.
    + apply Forall_map, Forall_forall. intros rb Hin.
      apply in_map_iff in Hin as (a & <- & _).
      now rewrite length_map, mgrid_axis_length.
  - rewrite earth_surface_points. unfold mgrid_axis. reflexivity.
  - intros px py pz Hin. rewrite earth_surface_points in Hin.
    apply in_flat_map in Hin as (a & _ & Hin).
    apply in_map_iff in Hin as (b & Heq & _). injection Heq as <- <- <-.
    rewrite on_sphere. apply sqrt_square. lra.
  - intros altitude_km points px py pz Halt Hin.
    rewrite orbit_points_map in Hin.
    apply in_map_iff in Hin as (t & Heq & _). injection Heq as <- <- <-.
    rewrite on_circle, sqrt_square by lra. lra.
Qed.

Local Close Scope R_scope.

(* ------------------------------------------------------------------ *)
(** ** The altitude sweep *)

Lemma np_arange_length start stop step :
  List.length (np_arange start stop step)
  = Z.to_nat ((stop - start + step - 1) / step).
Proof. unfold np_arange. now rewrite length_map, length_seq. Qed.

Lemma np_arange_nth start stop step k d :
  (k < List.length (np_arange start stop step))%nat ->
  nth k (np_arange start stop step) d = start + Z.of_nat k * step.
Proof.
  intros Hk. rewrite np_arange_length in Hk. unfold np_arange.
  set (f := fun k : nat => start + Z.of_nat k * step).
  rewrite (nth_indep _ d (f 0%nat)) by now rewrite length_map, length_seq.
  rewrite map_nth, seq_nth by exact Hk. reflexivity.
Qed.

(** The number of values is the least [n] with [start + n * step >= stop]. *)
Lemma np_arange_count start stop step :
  0 < step -> start < stop ->
  let n := Z.of_nat (List.length (np_arange start stop step)) in
  1 <= n /\ start + (n - 1) * step < stop <= start + n * step.
Proof.
  intros Hstep Hlt. cbv zeta. rewrite np_arange_length.
  set (q := (stop - start + step - 1) / step).
  assert (Hq : step * q <= stop - start + step - 1 < step * q + step).
  { unfold q. pose proof (Z.mul_div_le (stop - start + step - 1) step Hstep).
    pose proof (Z.mul_succ_div_gt (stop - start + step - 1) step Hstep). lia. }
  assert (1 <= q) by nia.
  rewrite Z2Nat.id by lia. split; [lia|]. nia.
Qed.

Lemma np_arange_In start stop step alt :
  0 < step -> In alt (np_arange start stop step) -> start <= alt < stop.
Proof.
  intros Hstep Hin.
  destruct (Z_lt_le_dec start stop) as [Hlt|Hge].
  - destruct (np_arange_count start stop step Hstep Hlt) as [Hn Hb].
    rewrite np_arange_length in Hn, Hb.
    unfold np_arange in Hin. apply in_map_iff in Hin as (k & <- & Hk).
    apply in_seq in Hk. nia.
  - exfalso. unfold np_arange in Hin.
    assert (Hq : (stop - start + step - 1) / step <= 0).
    { apply Z.lt_succ_r. apply Z.div_lt_upper_bound; lia. }
    destruct (Z.to_nat ((stop - start + step - 1) / step)) eqn:Hz; [exact Hin | lia].
Qed.

(** X10. The sweep's altitudes, for a positive step and
    sweep_min <= sweep_max: they start at sweep_min and go up by
    sweep_step; the last one is the first to reach sweep_max, so it can
    overshoot sweep_max by up to sweep_step - 1; every altitude lies in
    [sweep_min, sweep_max + sweep_step); and the three columns of the
    sweep table have the same length. *)
Theorem sweep_altitudes (sweep_min sweep_max sweep_step : Z)
    (Hstep : 0 < sweep_step) (Hrange : sweep_min <= sweep_max) :
  let stats := df_orbit_stats sweep_min sweep_max sweep_step in
  let altitudes := Altitude_km stats in
  let n := List.length altitudes in
  (1 <= n)%nat
  /\ (forall k d, (k < n)%nat -> nth k altitudes d = sweep_min + Z.of_nat k * sweep_step)
  /\ (forall d, nth 0 altitudes d = sweep_min)
  /\ (forall d, sweep_max <= nth (n - 1) altitudes d < sweep_max + sweep_step)
  /\ (forall k d, (S k < n)%nat -> nth k altitudes d < sweep_max)
  /\ (forall alt, In alt altitudes -> sweep_min <= alt < sweep_max + sweep_step)
  /\ List.length (Period_min stats) = n
  /\ List.length (Velocity_km_s stats) = n.
Proof.
  cbv zeta. unfold df_orbit_stats. cbv zeta. cbn [Altitude_km Period_min Velocity_km_s].
  destruct (np_arange_count sweep_min (sweep_max + sweep_step) sweep_step Hstep)
    as [Hn Hb]; [lia|].
  set (altitudes := np_arange sweep_min (sweep_max + sweep_step) sweep_step) in *.
  assert (Hnth : forall k d, (k < List.length altitudes)%nat ->
                   nth k altitudes d = sweep_min + Z.of_nat k * sweep_step)
    by (intros; now apply np_arange_nth).
  split; [lia|]. split; [exact Hnth|].
  split; [intros d; rewrite Hnth by lia; lia|].
  split; [intros d; rewrite Hnth by lia; rewrite Nat2Z.inj_sub by lia; cbn; lia|].
  split; [intros k d Hk; rewrite Hnth by lia; nia|].
  split; [intros alt Hin; now apply (np_arange_In _ _ sweep_step)|].
  now rewrite !length_map.
Qed.

Lemma sweep_altitudes_witness :
  Altitude_km (df_orbit_stats 300 2000 500) = [300; 800; 1300; 1800; 2300]
  /\ (forall d, 2000 <= nth 4 (Altitude_km (df_orbit_stats 300 2000 500)) d < 2500).
Proof.
  split; [reflexivity|].
  intros d.
  destruct (sweep_altitudes 300 2000 500) as (_ & _ & _ & H & _);
    [lia | lia | exact (H d)].
Defined.

Local Open Scope R_scope.

Lemma int64_wrap_range z : (-9223372036854775808 <= int64_wrap z < 9223372036854775808)%Z.
Proof.
  unfold int64_wrap.
  pose proof (Z.mod_pos_bound (z + 9223372036854775808) 18446744073709551616).
  lia.
Qed.

Lemma int64_wrap_small z :
  (-9223372036854775808 <= z < 9223372036854775808)%Z -> int64_wrap z = z.
Proof. intros H. unfold int64_wrap. rewrite Z.mod_small; lia. Qed.

(** Within the sliders' range the semi-major axis itself does not wrap. *)
Lemma a_sweep_exact alt :
  (0 <= alt <= 41000)%Z -> a_sweep alt = (R_EARTH_int + alt * 1000)%Z.
Proof.
  intros H. unfold a_sweep, int64_add, int64_mul, R_EARTH_int.
  rewrite (int64_wrap_small (alt * 1000)) by lia.
  apply int64_wrap_small. lia.
Qed.

Lemma IZR_a_sweep alt :
  (0 <= alt <= 41000)%Z -> IZR (a_sweep alt) = R_EARTH + IZR alt * 1000.
Proof.
  intros H. rewrite a_sweep_exact by exact H.
  unfold R_EARTH_int, R_EARTH. rewrite plus_IZR, mult_IZR. reflexivity.
Qed.

(** X11. The velocity column of the sweep, for slider values
    (sweep_min >= 0, sweep_max <= 36000, 0 < sweep_step <= 5000): the
    integer arithmetic on the altitude does not wrap, every entry is the
    velocity at R_EARTH + 1000 * altitude in km/s and is positive, and
    the entries strictly decrease down the table. *)
Theorem sweep_velocities (sweep_min sweep_max sweep_step : Z)
    (Hmin : (0 <= sweep_min)%Z) (Hmax : (sweep_max <= 36000)%Z)
    (Hstep : (0 < sweep_step <= 5000)%Z) :
  let stats := df_orbit_stats sweep_min sweep_max sweep_step in
  let n := List.length (Altitude_km stats) in
  (forall k, (k < n)%nat ->
     nth k (Velocity_km_s stats) 0
     = orbital_velocity (R_EARTH + IZR (nth k (Altitude_km stats) 0%Z) * 1000) / 1000
     /\ 0 < nth k (Velocity_km_s stats) 0)
  /\ (forall i j, (i < j)%nat -> (j < n)%nat ->
        nth j (Velocity_km_s stats) 0 < nth i (Velocity_km_s stats) 0).
Proof.
  cbv zeta. unfold df_orbit_stats. cbv zeta. cbn [Altitude_km Velocity_km_s].
  set (altitudes := np_arange sweep_min (sweep_max + sweep_step) sweep_step).
  pose proof R_EARTH_pos as Hr.
  assert (Hin : forall k, (k < List.length altitudes)%nat ->
                  (0 <= nth k altitudes 0%Z <= 41000)%Z).
  { intros k Hk.
    assert (H : (sweep_min <= nth k altitudes 0%Z < sweep_max + sweep_step)%Z)
      by (apply (np_arange_In _ _ sweep_step); [lia | now apply nth_In]).
    lia. }
  assert (Hv : forall k, (k < List.length altitudes)%nat ->
                 nth k (map (fun alt => orbital_velocity (IZR (a_sweep alt)) / 1000)
                            altitudes) 0
                 = orbital_velocity (R_EARTH + IZR (nth k altitudes 0%Z) * 1000) / 1000).
  { intros k Hk.
    set (f := fun alt => orbital_velocity (IZR (a_sweep alt)) / 1000).
    rewrite (nth_indep _ 0 (f 0%Z)) by now rewrite length_map.
    rewrite map_nth. unfold f. now rewrite IZR_a_sweep by now apply Hin. }
  split.
  - intros k Hk. split; [now apply Hv|]. rewrite Hv by exact Hk.
    apply Rdiv_lt_0_compat; [|lra].
    apply orbital_velocity_pos.
    pose proof (Hin k Hk) as [H0 _]. apply IZR_le in H0. lra.
  - intros i j Hij Hj. rewrite !Hv by lia.
    apply Rmult_lt_compat_r; [lra|].
    pose proof (Hin i ltac:(lia)) as [H0 _]. apply IZR_le in H0.
    apply orbital_velocity_decreasing; [lra|].
    unfold altitudes. rewrite !np_arange_nth by (fold altitudes; lia).
    assert (Hlt : (sweep_min + Z.of_nat i * sweep_step
                   < sweep_min + Z.of_nat j * sweep_step)%Z) by nia.
    apply IZR_lt in Hlt. lra.
Qed.

Lemma sweep_velocities_witness :
  nth 1 (Velocity_km_s (df_orbit_stats 300 2000 500)) 0
  < nth 0 (Velocity_km_s (df_orbit_stats 300 2000 500)) 0.
Proof.
  destruct (sweep_velocities 300 2000 500) as [_ H]; [lia | lia | lia |].
  apply (H 0%nat 1%nat); [lia|]. vm_compute. lia.
Defined.

(** X12. The period column of the sweep, for the same slider values: on
    every row the cube of the semi-major axis is taken in int64 and
    overflows (the semi-major axis is at least R_EARTH, whose cube
    already exceeds 2^63), so the entry is never the Kepler period of
    that altitude: it is NaN, or a value strictly below
    kepler_period(R_EARTH + 1000 * altitude) / 60. *)
Theorem sweep_periods_overflow (sweep_min sweep_max sweep_step : Z)
    (Hmin : (0 <= sweep_min)%Z) (Hmax : (sweep_max <= 36000)%Z)
    (Hstep : (0 < sweep_step <= 5000)%Z) :
  let stats := df_orbit_stats sweep_min sweep_max sweep_step in
  let n := List.length (Altitude_km stats) in
  forall k, (k < n)%nat ->
    let alt := nth k (Altitude_km stats) 0%Z in
    let a := (R_EARTH_int + alt * 1000)%Z in
    a_sweep alt = a
    /\ (int64_cube a < a * a * a)%Z
    /\ (nth k (Period_min stats) None = None
        \/ exists T, nth k (Period_min stats) None = Some T
                     /\ T < kepler_period (R_EARTH + IZR alt * 1000) / 60).
Proof.
  cbv zeta. unfold df_orbit_stats. cbv zeta. cbn [Altitude_km Period_min].
  set (altitudes := np_arange sweep_min (sweep_max + sweep_step) sweep_step).
  intros k Hk.
  assert (Halt : (0 <= nth k altitudes 0%Z <= 41000)%Z).
  { assert (H : (sweep_min <= nth k altitudes 0%Z < sweep_max + sweep_step)%Z)
      by (apply (np_arange_In _ _ sweep_step); [lia | now apply nth_In]).
    lia. }
  set (alt := nth k altitudes 0%Z) in *.
  pose proof (a_sweep_exact alt Halt) as Ha.
  assert (Hcube : (int64_cube (R_EARTH_int + alt * 1000)
                   < (R_EARTH_int + alt * 1000) * (R_EARTH_int + alt * 1000)
                     * (R_EARTH_int + alt * 1000))%Z).
  { unfold int64_cube, int64_mul at 1.
    pose proof (int64_wrap_range
                  ((R_EARTH_int + alt * 1000)
                   * int64_mul (R_EARTH_int + alt * 1000) (R_EARTH_int + alt * 1000))).
    unfold R_EARTH_int in *.
    assert (6371000 * 6371000 <= (6371000 + alt * 1000) * (6371000 + alt * 1000))%Z
      by nia.
    nia. }
  split; [exact Ha|]. split; [exact Hcube|].
  set (f := fun alt => match kepler_period_int64 (a_sweep alt) with
                       | Some T => Some (T / 60)
                       | None => None
                       end).
  rewrite (nth_indep _ None (f 0%Z)) by now rewrite length_map.
  rewrite map_nth. fold alt. unfold f. rewrite Ha.
  unfold kepler_period_int64, np_sqrt.
  destruct (Rle_dec 0 (IZR (int64_cube (R_EARTH_int + alt * 1000)) / MU_EARTH))
    as [Hpos|Hneg]; [right|now left].
  eexists. split; [reflexivity|].
  apply Rmult_lt_compat_r; [lra|].
  unfold kepler_period.
  apply Rmult_lt_compat_l; [pose proof PI_RGT_0; lra|].
  pose proof MU_EARTH_pos as Hmu.
  apply sqrt_lt_1_alt. split; [exact Hpos|].
  apply Rmult_lt_compat_r; [now apply Rinv_0_lt_compat|].
  apply IZR_lt in Hcube. rewrite !mult_IZR, plus_IZR, mult_IZR in Hcube.
  unfold R_EARTH_int in Hcube. fold R_EARTH in Hcube.
  replace ((R_EARTH + IZR alt * 1000) ^ 3)
    with ((R_EARTH + IZR alt * 1000) * (R_EARTH + IZR alt * 1000)
          * (R_EARTH + IZR alt * 1000)) by ring.
  exact Hcube.
Qed.

Lemma sweep_periods_overflow_witness :
  a_sweep 300 = 6671000%Z
  /\ int64_cube 6671000 = 1726544531647174144%Z
  /\ (int64_cube 6671000 < 6671000 * 6671000 * 6671000)%Z.
Proof.
  split; [reflexivity|]. split; [reflexivity|].
  destruct (sweep_periods_overflow 300 2000 500) with (k := 0%nat)
    as (_ & H & _); [lia | lia | lia | vm_compute; lia | exact H].
Defined.

(** In the default sweep (300 to 2000 km in steps of 500) the wrapped
    cube of the second row, 800 km, is negative: its period is NaN. *)
Example sweep_period_nan :
  nth 1 (Altitude_km (df_orbit_stats 300 2000 500)) 0%Z = 800%Z
  /\ int64_cube (a_sweep 800) = (-178820263191032320)%Z
  /\ kepler_period_int64 (a_sweep 800) = None.
Proof.
  split; [reflexivity|]. split; [reflexivity|].
  unfold kepler_period_int64, np_sqrt.
  replace (int64_cube (a_sweep 800)) with (-178820263191032320)%Z by reflexivity.
  destruct (Rle_dec 0 (IZR (-178820263191032320) / MU_EARTH)) as [Hpos|_];
    [|reflexivity].
  exfalso. unfold MU_EARTH in Hpos. lra.
Qed.

Local Close Scope R_scope.

(* ------------------------------------------------------------------ *)
(** ** The stream of draws in one run *)

Section DrawStream.
Variable rng : RandomState.

Lemma randint_draws_length n : forall s,
  List.length (fst (randint_draws rng n s)) = n.
Proof.
  induction n as [|n IH]; intros s; cbn; [reflexivity|].
  unfold bind, np_random_randint, ret.
  destruct (randint rng 1 5 s) as [x s1].
  specialize (IH s1). destruct (randint_draws rng n s1) as [xs s2].
  cbn in *. now rewrite IH.
Qed.

Lemma randint_draws_app n m : forall s,
  randint_draws rng (n + m) s
  = let (xs1, s1) := randint_draws rng n s in
    let (xs2, s2) := randint_draws rng m s1 in
    (xs1 ++ xs2, s2).
Proof.
  induction n as [|n IH]; intros s; cbn.
  - unfold ret. now destruct (randint_draws rng m s).
  - unfold bind, np_random_randint, ret.
    destruct (randint rng 1 5 s) as [x s1].
    rewrite IH. destruct (randint_draws rng n s1) as [xs1 s2].
    now destruct (randint_draws rng m s2).
Qed.

Lemma threat_rows_of_app k1 k2 d1 d2 :
  List.length d1 = (2 * List.length k1)%nat ->
  threat_rows_of (k1 ++ k2) (d1 ++ d2)
  = threat_rows_of k1 d1 ++ threat_rows_of k2 d2.
Proof.
  revert d1. induction k1 as [|[t dim] k1 IH]; intros d1 Hlen.
  - destruct d1; [reflexivity | discriminate].
  - destruct d1 as [|l [|i d1]]; cbn in Hlen; try lia.
    cbn. f_equal. apply IH. lia.
Qed.

Lemma threat_inner_draws t dims : forall rows s,
  for_each dims (threat_row rng t) rows s
  = let (ds, s') := randint_draws rng (2 * List.length dims) s in
    (rows ++ threat_rows_of (map (pair t) dims) ds, s').
Proof.
  induction dims as [|dim dims IH]; intros rows s.
  - cbn. unfold ret. now rewrite app_nil_r.
  - cbn [for_each List.length map].
    replace (2 * S (List.length dims))%nat with (S (S (2 * List.length dims))) by lia.
    cbn [randint_draws].
    unfold bind at 1. unfold threat_row at 1.
    unfold bind, np_random_randint, ret.
    destruct (randint rng 1 5 s) as [l s1].
    destruct (randint rng 1 5 s1) as [i s2].
    rewrite IH. destruct (randint_draws rng (2 * List.length dims) s2) as [ds s3].
    cbn [threat_rows_of]. now rewrite <- app_assoc.
Qed.

Lemma threat_rows_draws ts dims : forall rows s,
  threat_rows rng ts dims rows s
  = let (ds, s') := randint_draws rng (2 * (List.length ts * List.length dims)) s in
    (rows ++ threat_rows_of (list_prod ts dims) ds, s').
Proof.
  unfold threat_rows.
  induction ts as [|t ts IH]; intros rows s.
  - cbn. unfold ret. now rewrite app_nil_r.
  - cbn [for_each List.length list_prod].
    replace (2 * (S (List.length ts) * List.length dims))%nat
      with (2 * List.length dims + 2 * (List.length ts * List.length dims))%nat by lia.
    unfold bind. rewrite threat_inner_draws, randint_draws_app.
    pose proof (randint_draws_length (2 * List.length dims) s) as Hlen.
    destruct (randint_draws rng (2 * List.length dims) s) as [ds1 s1].
    rewrite IH.
    destruct (randint_draws rng (2 * (List.length ts * List.length dims)) s1)
      as [ds2 s2].
    cbn [fst] in Hlen.
    change (map (fun y : string => (t, y)) dims) with (map (pair t) dims).
    rewrite threat_rows_of_app by now rewrite length_map.
    now rewrite <- app_assoc.
Qed.

Lemma threat_rows_of_nth keys : forall draws k d,
  (k < List.length keys)%nat ->
  List.length draws = (2 * List.length keys)%nat ->
  nth k (threat_rows_of keys draws) d
  = mkRow (fst (nth k keys ("", ""))) (snd (nth k keys ("", "")))
          (nth (2 * k) draws 0) (nth (2 * k + 1) draws 0).
Proof.
  induction keys as [|[t dim] keys IH]; intros draws k d Hk Hlen; cbn in Hk; [lia|].
  destruct draws as [|l [|i draws]]; cbn in Hlen; try lia.
  destruct k as [|k]; [reflexivity|].
  cbn [threat_rows_of nth]. rewrite IH by lia.
  replace (2 * S k)%nat with (S (S (2 * k))) by lia.
  replace (S (S (2 * k)) + 1)%nat with (S (S (2 * k + 1))) by lia.
  reflexivity.
Qed.
End DrawStream.

(** X13. One run draws from a single stream that starts at seed 42: the
    threat table is built from the first 60 [randint(1, 5)] draws, record
    [k] (in loop order) taking draw [2k] as Likelihood and draw [2k+1] as
    Impact, and the coverage levels are the 36 [choice] draws that follow;
    the run leaves the generator in the state after those 96 draws. *)
Theorem run_draw_stream (rng : RandomState) (sort : sort_values_desc)
    (segment : string) (risk_threshold : Z) (s : state rng) :
  let stream := randint_draws rng 60 (seed rng 42) in
  let after := choice_draws rng 36 (snd stream) in
  let run := soc_tab rng sort segment risk_threshold s in
  generate_mock_sat_threat_data rng s
  = (assign_RiskScore (threat_rows_of (list_prod threats cia_dim) (fst stream)),
     snd stream)
  /\ List.length (fst stream) = 60%nat
  /\ (forall k d, (k < 30)%nat ->
        Likelihood (nth k (tab_df_threats (fst run)) d) = nth (2 * k) (fst stream) 0
        /\ Impact (nth k (tab_df_threats (fst run)) d) = nth (2 * k + 1) (fst stream) 0)
  /\ map Coverage (tab_df_mitre (fst run)) = fst after
  /\ snd run = snd after.
Proof.
  cbv zeta.
  assert (Hgen : generate_mock_sat_threat_data rng s
                 = (assign_RiskScore
                      (threat_rows_of (list_prod threats cia_dim)
                         (fst (randint_draws rng 60 (seed rng 42)))),
                    snd (randint_draws rng 60 (seed rng 42)))).
  { unfold generate_mock_sat_threat_data, bind, np_random_seed, ret.
    rewrite threat_rows_draws.
    change (2 * (List.length threats * List.length cia_dim))%nat with 60%nat.
    now destruct (randint_draws rng 60 (seed rng 42)). }
  pose proof (randint_draws_length rng 60 (seed rng 42)) as Hlen.
  split; [exact Hgen|]. split; [exact Hlen|].
  unfold soc_tab, bind, ret. rewrite Hgen.
  rewrite generate_mitre_like_matrix_run. cbn [fst snd tab_df_threats tab_df_mitre].
  split; [|split; [|reflexivity]].
  - intros k d Hk. unfold assign_RiskScore.
    set (f := fun r => mkThreat (row_Threat r) (row_CIA r) (row_Likelihood r)
                                (row_Impact r)
                                (int64_mul (row_Likelihood r) (row_Impact r))).
    assert (Hrows : List.length (threat_rows_of (list_prod threats cia_dim)
                                   (fst (randint_draws rng 60 (seed rng 42)))) = 30%nat).
    { pose proof (threat_table_keys rng s) as Hkeys. rewrite Hgen in Hkeys.
      cbn [fst] in Hkeys. apply (f_equal (@List.length _)) in Hkeys.
      rewrite length_map in Hkeys. unfold assign_RiskScore in Hkeys.
      rewrite length_map in Hkeys. exact Hkeys. }
    rewrite (nth_indep _ d (f (mkRow "" "" 0 0))) by now rewrite length_map, Hrows.
    rewrite map_nth, (threat_rows_of_nth _ _ k) by (rewrite ?Hlen; cbn; lia).
    split; reflexivity.
  - unfold assign_CoverageScore. rewrite map_map. cbn [Coverage].
    apply coverage_rows_of_levels. now rewrite choice_draws_length.
Qed.

(* ------------------------------------------------------------------ *)
(** ** The findings table *)

(** X14. For a sort that keeps the contract of the default algorithm:
    the findings table has as many rows as there are records at or above
    the threshold; it is empty exactly when every record is below the
    threshold; and otherwise its first row is a record of the table whose
    RiskScore is the largest of the table. *)
Theorem findings_top_row (sort : sort_values_desc) (H : SortContract sort)
    (risk_threshold : Z) (df : list ThreatRecord) :
  let findings := sort (high_risk risk_threshold df) in
  List.length findings = List.length (high_risk risk_threshold df)
  /\ (findings = [] <-> Forall (fun r => RiskScore r < risk_threshold) df)
  /\ (forall top rest, findings = top :: rest ->
        In top df /\ risk_threshold <= RiskScore top
        /\ Forall (fun r => RiskScore r <= RiskScore top) df).
Proof.
  cbv zeta.
  pose proof (sort_perm sort H (high_risk risk_threshold df)) as Hp.
  pose proof (sort_sorted sort H (high_risk risk_threshold df)) as Hs.
  split; [now apply Permutation_length|]. split; [split|].
  - intros Hnil. rewrite Hnil in Hp. apply Permutation_nil in Hp.
    apply Forall_forall. intros r Hr.
    destruct (Z_lt_le_dec (RiskScore r) risk_threshold) as [Hlt|Hge]; [exact Hlt|].
    exfalso. assert (Hin : In r (high_risk risk_threshold df))
      by (apply high_risk_In; auto).
    now rewrite Hp in Hin.
  - intros Hall.
    assert (Hnil : high_risk risk_threshold df = []).
    { unfold high_risk. apply filter_none.
      eapply Forall_impl; [|exact Hall]. intros r Hr. cbn. now apply Z.leb_gt. }
    rewrite Hnil in Hp |- *. now apply Permutation_sym, Permutation_nil in Hp.
  - intros top rest Heq. rewrite Heq in Hp, Hs.
    assert (Htop : In top (high_risk risk_threshold df))
      by (eapply Permutation_in; [exact Hp | now left]).
    apply high_risk_In in Htop as [Htop Hthr].
    split; [exact Htop|]. split; [exact Hthr|].
    apply StronglySorted_inv in Hs as [_ Hrest].
    apply Forall_forall. intros r Hr.
    destruct (Z_lt_le_dec (RiskScore r) risk_threshold) as [Hlt|Hge]; [lia|].
    assert (Hin : In r (top :: rest)).
    { eapply Permutation_in; [symmetry; exact Hp|]. apply high_risk_In. auto. }
    destruct Hin as [->|Hin]; [lia|].
    rewrite Forall_forall in Hrest. specialize (Hrest r Hin).
    unfold descending in Hrest. lia.
Qed.

Lemma findings_top_row_witness :
  List.length (insertion_sort_desc false
                 (high_risk 9 [ mkThreat "Uplink Jamming" "Integrity" 3 4 12;
                                mkThreat "Sat Bus Exploit" "Availability" 4 4 16 ]))
  = List.length (high_risk 9 [ mkThreat "Uplink Jamming" "Integrity" 3 4 12;
                               mkThreat "Sat Bus Exploit" "Availability" 4 4 16 ]).
Proof.
  exact (proj1 (findings_top_row (insertion_sort_desc false)
                  (insertion_sort_desc_contract false) 9 _)).
Defined.

(* ------------------------------------------------------------------ *)
(** ** What the charts of a run receive *)

Lemma length_filter_CIA (rng : RandomState) (s : state rng) (p : string * string -> bool) :
  List.length (filter (fun r => p (threat_key r))
                      (fst (generate_mock_sat_threat_data rng s)))
  = List.length (filter p (list_prod threats cia_dim)).
Proof.
  rewrite (length_filter_map threat_key p), threat_table_keys. reflexivity.
Qed.

(** X15. In every run, whatever the random source and its state, the
    charts get the same amounts of data: the full table has 10 records
    per CIA dimension and each named segment 3 per dimension (the points
    of the box plot), and the heatmap counts add up to 30 for "All" and
    to 9 for each of the Space, Ground and Link segments. *)
Theorem chart_inputs_sizes (rng : RandomState) (s : state rng) :
  let df := fst (generate_mock_sat_threat_data rng s) in
  (forall dim, In dim cia_dim ->
     List.length (filter (fun r => String.eqb (CIA r) dim) df) = 10%nat
     /\ (forall segment,
           segment = "Space Segment" \/ segment = "Ground Segment"
           \/ segment = "Link Segment" ->
           List.length (filter (fun r => String.eqb (CIA r) dim) (df_seg segment df))
           = 3%nat))
  /\ total_count (heatmap_data (df_seg "All" df)) = 30
  /\ total_count (heatmap_data (df_seg "Space Segment" df)) = 9
  /\ total_count (heatmap_data (df_seg "Ground Segment" df)) = 9
  /\ total_count (heatmap_data (df_seg "Link Segment" df)) = 9.
Proof.
  cbv zeta.
  assert (Htotal : forall tbl, total_count (heatmap_data tbl)
                               = Z.of_nat (List.length tbl)).
  { induction tbl as [|r tbl IH]; [reflexivity|].
    cbn [heatmap_data fold_right]. fold (heatmap_data tbl).
    rewrite total_count_count_key, IH. cbn [List.length]. lia. }
  assert (Hseg : forall names,
             List.length (filter (fun r => isin (Threat r) names)
                                 (fst (generate_mock_sat_threat_data rng s)))
             = List.length (filter (fun k => isin (fst k) names)
                                   (list_prod threats cia_dim))).
  { intros names.
    apply (length_filter_CIA rng s (fun k => isin (fst k) names)). }
  split.
  - intros dim Hdim. split.
    + etransitivity;
        [apply (length_filter_CIA rng s (fun k => String.eqb (snd k) dim))|].
      cbn in Hdim. destruct Hdim as [ <- | [ <- | [ <- | [] ] ] ]; reflexivity.
    + intros segment Hsegment.
      assert (Hlen : forall names,
                 List.length (filter (fun r => String.eqb (CIA r) dim)
                                (filter (fun r => isin (Threat r) names)
                                   (fst (generate_mock_sat_threat_data rng s))))
                 = List.length (filter (fun k => String.eqb (snd k) dim
                                                 && isin (fst k) names)
                                  (list_prod threats cia_dim))).
      { intros names.
        etransitivity;
          [|apply (length_filter_CIA rng s
                     (fun k => String.eqb (snd k) dim && isin (fst k) names))].
        f_equal. clear. induction (fst (generate_mock_sat_threat_data rng s))
          as [|r l IH]; [reflexivity|].
        cbn [filter threat_key fst snd].
        destruct (isin (Threat r) names); cbn [filter];
          destruct (String.eqb (CIA r) dim); cbn [andb]; now rewrite IH. }
      cbn in Hdim.
      destruct Hsegment as [ -> | [ -> | -> ] ]; unfold df_seg;
        cbn [segment_mask String.eqb Ascii.eqb Bool.eqb]; rewrite Hlen;
        destruct Hdim as [ <- | [ <- | [ <- | [] ] ] ]; reflexivity.
  - rewrite !Htotal. unfold df_seg.
    cbn [segment_mask String.eqb Ascii.eqb Bool.eqb]. rewrite !Hseg.
    rewrite <- (length_map threat_key), threat_table_keys.
    repeat split.
Qed.
